(** * Grid conversion (notebook 1-08) and DBSCAN clustering (notebook 2-04)

    A shallow embedding of the two notebooks of the RAPIDS workshop
    repository:

    - [1-08_grid_converter_dask.ipynb]: the function
      [latlong2osgbgrid_dask], which adds OSGB36 northing and easting
      columns to a dataframe partition, and its use through
      [map_partitions];
    - [2-04_DBSCAN.ipynb]: the selection of the infected rows and the
      call of [cuml.DBSCAN(...).fit_predict].

    Numbers.  The notebook computes with CuPy arrays of floats.  The
    arithmetic is kept abstract: the kernel is written once against an
    interface of elementwise operations ([NumOps]) and is then used at
    three carriers: scalars, arrays of scalars (with NumPy broadcasting),
    and the real numbers, where the formulas of the projection can be
    compared with their textbook form.  Rounding is not modelled.

    Row labels.  The transform is modelled twice: on the columns of a
    partition alone, which is the partition with the default index that
    [read_csv] produces, and on a partition with its row labels
    ([Indexed]), where the assignment of a series aligns on the
    labels. *)

From Stdlib Require Import QArith Reals Qreals Lra.
From stdpp Require Import base list strings.

(** ** The elementwise arithmetic used by the kernel *)

(** Everything the body of [latlong2osgbgrid_dask] does with numbers:
    literals, the constant [cp.pi], the four operators, [**] with an
    integer literal on the right ([fpown]), [**] with a float on the right
    ([fpowf]), and [cp.sin], [cp.cos], [cp.tan].  None of these operations
    raises: on floats a division by zero or an overflow gives an infinity
    or a NaN, which is an ordinary value of the carrier. *)
Class NumOps (T : Type) : Type := {
  flit : Q -> T;
  fpi : T;
  fadd : T -> T -> T;
  fsub : T -> T -> T;
  fmul : T -> T -> T;
  fdiv : T -> T -> T;
  fpown : T -> nat -> T;
  fpowf : T -> T -> T;
  fsin : T -> T;
  fcos : T -> T;
  ftan : T -> T
}.
Global Hint Mode NumOps ! : typeclass_instances.

Declare Scope num_scope.
Delimit Scope num_scope with num.
Notation "x + y" := (fadd x y) : num_scope.
Notation "x - y" := (fsub x y) : num_scope.
Notation "x * y" := (fmul x y) : num_scope.
Notation "x / y" := (fdiv x y) : num_scope.
Notation "x ^ k" := (fpown x k) : num_scope.
Notation "x ** y" := (fpowf x y) (at level 30, right associativity) : num_scope.
Notation "# q" := (flit q%Q) (at level 9, q at level 9, format "# q") : num_scope.

(** ** The conversion kernel *)

Section Kernel.
Context {T : Type} `{NumOps T}.
Local Open Scope num_scope.

(** Part 3 of [latlong2osgbgrid_dask] (source lines 200-238), "the
    previous cupy code": from the arrays [lat] and [long] to the arrays
    [northing] and [easting].  The ellipsoid and the origin of the
    projection are local constants of the function. *)
Definition latlong2osgbgrid (lat long : T) (input_degrees : bool) : T * T :=
  let lat := if input_degrees then lat * fpi / #180 else lat in
  let long := if input_degrees then long * fpi / #180 else long in
  let a := #6377563.396 in
  let b := #6356256.909 in
  let e2 := (a ^ 2 - b ^ 2) / a ^ 2 in
  let N0 := #(-100000) in
  let E0 := #400000 in
  let F0 := #0.9996012717 in
  let phi0 := #49 * fpi / #180 in
  let lambda0 := #(-2) * fpi / #180 in
  let sinlat := fsin lat in
  let coslat := fcos lat in
  let tanlat := ftan lat in
  let latdiff := lat - phi0 in
  let longdiff := long - lambda0 in
  let n := (a - b) / (a + b) in
  let nu := a * F0 * (#1 - e2 * sinlat ^ 2) ** #(-0.5) in
  let rho := a * F0 * (#1 - e2) * (#1 - e2 * sinlat ^ 2) ** #(-1.5) in
  let eta2 := nu / rho - #1 in
  let M := b * F0 * ((#1 + n + #5 / #4 * (n ^ 2 + n ^ 3)) * latdiff -
                     (#3 * (n + n ^ 2) + #21 / #8 * n ^ 3) * fsin latdiff * fcos (lat + phi0) +
                     #15 / #8 * (n ^ 2 + n ^ 3) * fsin (#2 * latdiff) * fcos (#2 * (lat + phi0)) -
                     #35 / #24 * n ^ 3 * fsin (#3 * latdiff) * fcos (#3 * (lat + phi0))) in
  let I := M + N0 in
  let II := nu / #2 * sinlat * coslat in
  let III := nu / #24 * sinlat * coslat ^ 3 * (#5 - tanlat ^ 2 + #9 * eta2) in
  let IIIA := nu / #720 * sinlat * coslat ^ 5 * (#61 - #58 * tanlat ^ 2 + tanlat ^ 4) in
  let IV := nu * coslat in
  let V := nu / #6 * coslat ^ 3 * (nu / rho - ftan lat ^ 2) in
  let VI := nu / #120 * coslat ^ 5 *
            (#5 - #18 * tanlat ^ 2 + tanlat ^ 4 + #14 * eta2 - #58 * tanlat ^ 2 * eta2) in
  let northing := I + II * longdiff ^ 2 + III * longdiff ^ 4 + IIIA * longdiff ^ 6 in
  let easting := E0 + IV * longdiff + V * longdiff ^ 3 + VI * longdiff ^ 5 in
  (northing, easting).
End Kernel.

(** ** CuPy arrays *)

(** A value handled by the kernel is a Python scalar or a one-dimensional
    array.  An operator applied to a scalar and an array broadcasts the
    scalar; applied to two arrays it works position by position.  The
    arrays of one partition all have the length of the partition, so the
    case of two arrays of different lengths (where CuPy raises unless one
    of them has length one) does not arise for the frames considered
    below; [zip_with] is used there. *)
Inductive nd (T : Type) : Type :=
  | Scalar (x : T)
  | Array (xs : list T).
Arguments Scalar {T} x.
Arguments Array {T} xs.

Section Arrays.
Context {T : Type} `{NumOps T}.

Definition nd_map (f : T -> T) (u : nd T) : nd T :=
  match u with
  | Scalar x => Scalar (f x)
  | Array xs => Array (f <$> xs)
  end.

Definition nd_map2 (f : T -> T -> T) (u v : nd T) : nd T :=
  match u, v with
  | Scalar x, Scalar y => Scalar (f x y)
  | Scalar x, Array ys => Array (f x <$> ys)
  | Array xs, Scalar y => Array ((fun x => f x y) <$> xs)
  | Array xs, Array ys => Array (zip_with f xs ys)
  end.

#[export] Instance nd_ops : NumOps (nd T) := {|
  flit q := Scalar (flit q);
  fpi := Scalar fpi;
  fadd := nd_map2 fadd;
  fsub := nd_map2 fsub;
  fmul := nd_map2 fmul;
  fdiv := nd_map2 fdiv;
  fpown u k := nd_map (fun x => fpown x k) u;
  fpowf := nd_map2 fpowf;
  fsin := nd_map fsin;
  fcos := nd_map fcos;
  ftan := nd_map ftan
|}.

(** [broadcasts rows g u]: the value [u] is, position by position, the
    function [g] of the rows; a scalar is a function that ignores the
    row. *)
Definition broadcasts {R : Type} (rows : list R) (g : R -> T) (u : nd T) : Prop :=
  match u with
  | Scalar c => forall r, g r = c
  | Array xs => xs = g <$> rows
  end.
End Arrays.

(** ** Dataframe partitions *)

(** Python exceptions the transform can raise. *)
Inductive error : Type :=
  | KeyError (name : string)
  | TypeError
  | ValueError.

Inductive result (A : Type) : Type :=
  | Ok (a : A)
  | Raise (e : error).
Arguments Ok {A} a.
Arguments Raise {A} e.

#[export] Instance result_ret : MRet result := fun _ a => Ok a.
#[export] Instance result_bind : MBind result := fun _ _ f m =>
  match m with
  | Ok a => f a
  | Raise e => Raise e
  end.

(** A column is a float column or a string column (the two dtypes the
    notebook reads the csv with). *)
Inductive Column (T : Type) : Type :=
  | FloatCol (xs : list T)
  | StrCol (xs : list string).
Arguments FloatCol {T} xs.
Arguments StrCol {T} xs.

Inductive Cell (T : Type) : Type :=
  | FloatCell (x : T)
  | StrCell (s : string).
Arguments FloatCell {T} x.
Arguments StrCell {T} s.

(** The columns of a partition (a cuDF dataframe), from left to right.
    Rows are addressed by position: the partitions that [read_csv]
    produces carry the default index 0, 1, ..., and so does
    [cudf.Series(array)].  The labels of the rows are added in
    [Indexed.Frame] below. *)
Abbreviation Partition T := (list (string * Column T)).

(** A row lists its cells from left to right (as [part_df.itertuples()]
    does). *)
Abbreviation Row T := (list (string * Cell T)).

(** A Dask dataframe: its partitions, in order. *)
Abbreviation DaskFrame T := (list (Partition T)).

Section Frames.
Context {T : Type} `{NumOps T}.

Definition col_length (c : Column T) : nat :=
  match c with
  | FloatCol xs => length xs
  | StrCol xs => length xs
  end.

Definition col_cells (c : Column T) : list (Cell T) :=
  match c with
  | FloatCol xs => FloatCell <$> xs
  | StrCol xs => StrCell <$> xs
  end.

(** Every column of a dataframe has the number of rows of the frame. *)
Definition wf_partition (nrows : nat) (part : Partition T) : Prop :=
  Forall (fun kc => col_length kc.2 = nrows) part.

Definition columns (part : Partition T) : list string := fst <$> part.

(** [part_df[name]] *)
Fixpoint getitem (part : Partition T) (name : string) : result (Column T) :=
  match part with
  | [] => Raise (KeyError name)
  | (k, c) :: rest => if decide (k = name) then Ok c else getitem rest name
  end.

(** [part_df[name] = col]: an existing column is replaced where it
    stands, a new one is added on the right. *)
Fixpoint setitem (part : Partition T) (name : string) (col : Column T) : Partition T :=
  match part with
  | [] => [(name, col)]
  | (k, c) :: rest =>
      if decide (k = name) then (k, col) :: rest
      else (k, c) :: setitem rest name col
  end.

(** [cp.asarray(column)], on the two kinds of columns of the frames of
    the notebook: a float column becomes an array, a string column
    cannot be converted. *)
Definition asarray (c : Column T) : result (nd T) :=
  match c with
  | FloatCol xs => Ok (Array xs)
  | StrCol _ => Raise TypeError
  end.

(** [cudf.Series(array)] *)
Definition Series (u : nd T) : result (Column T) :=
  match u with
  | Array xs => Ok (FloatCol xs)
  | Scalar _ => Raise ValueError
  end.

(** The function of the notebook (source lines 181-244), on a partition
    with the default index (see [Indexed.latlong2osgbgrid_dask] for
    other labels).  The partition is changed in place and returned; the
    result of the model is the partition after the call. *)
Definition latlong2osgbgrid_dask (part_df : Partition T)
    (lat_col long_col : string) (input_degrees : bool) : result (Partition T) :=
  lat ← getitem part_df lat_col ≫= asarray;
  long ← getitem part_df long_col ≫= asarray;
  let '(northing, easting) := latlong2osgbgrid lat long input_degrees in
  northing ← Series northing;
  let part_df := setitem part_df "northing" northing in
  easting ← Series easting;
  let part_df := setitem part_df "easting" easting in
  mret part_df.

(** The value in row [i] of column [name]. *)
Definition cell (part : Partition T) (name : string) (i : nat) : option (Cell T) :=
  match getitem part name with
  | Ok c => col_cells c !! i
  | Raise _ => None
  end.

(** [len(part_df)] *)
Definition nrows (part : Partition T) : nat :=
  match part with
  | [] => 0
  | (_, c) :: _ => col_length c
  end.

(** The rows of a partition, from top to bottom. *)
Fixpoint rows_of (n : nat) (part : Partition T) : list (Row T) :=
  match part with
  | [] => replicate n []
  | (k, c) :: rest =>
      zip_with (fun x row => (k, x) :: row) (col_cells c) (rows_of n rest)
  end.

Definition rows (part : Partition T) : list (Row T) := rows_of (nrows part) part.

(** [ddf.map_partitions(f)]: [f] is applied to every partition; an
    exception in one of the calls is the outcome of the computation
    (Dask reports it wrapped in an exception of its own; the model keeps
    the exception of the call). *)
Definition map_partitions (f : Partition T -> result (Partition T))
    (ddf : DaskFrame T) : result (DaskFrame T) :=
  mapM f ddf.

(** The rows of a Dask dataframe ([ddf.compute()]). *)
Definition compute_rows (ddf : DaskFrame T) : list (Row T) :=
  concat (rows <$> ddf).

(** The second step of the pipeline of the notebook (source line 311),
    [ddf.map_partitions(latlong2osgbgrid_dask)]: the column names and the
    degrees flag take their default values. *)
Definition grid_pipeline (ddf : DaskFrame T) : result (DaskFrame T) :=
  map_partitions (fun part_df => latlong2osgbgrid_dask part_df "lat" "long" true) ddf.

(** Cutting one frame into partitions.  [read_csv] cuts its input into
    consecutive blocks of rows; [repartition sizes part] cuts [part] after
    the first [sizes_0] rows, then after the next [sizes_1] rows, and so
    on, the last partition taking what is left: [S (length sizes)]
    partitions. *)
Definition col_take (n : nat) (c : Column T) : Column T :=
  match c with
  | FloatCol xs => FloatCol (take n xs)
  | StrCol xs => StrCol (take n xs)
  end.

Definition col_drop (n : nat) (c : Column T) : Column T :=
  match c with
  | FloatCol xs => FloatCol (drop n xs)
  | StrCol xs => StrCol (drop n xs)
  end.

Definition head_rows (n : nat) (part : Partition T) : Partition T :=
  (fun kc => (kc.1, col_take n kc.2)) <$> part.

Definition tail_rows (n : nat) (part : Partition T) : Partition T :=
  (fun kc => (kc.1, col_drop n kc.2)) <$> part.

Fixpoint repartition (sizes : list nat) (part : Partition T) : DaskFrame T :=
  match sizes with
  | [] => [part]
  | n :: sizes => head_rows n part :: repartition sizes (tail_rows n part)
  end.
End Frames.

(** ** Partitions with row labels *)

(** A cuDF dataframe carries an index: one label for each row.
    [read_csv] gives every partition the default index, the labels
    0, 1, ...; a frame filtered by a mask or cut by [from_cudf] has other
    labels.  [cudf.Series(array)] has the default labels, and
    [frame[name] = series] (source lines 241-242) aligns the series on
    the index of the frame: the row with label [l] receives the entry of
    the series at label [l], and a null when the series has no such
    label.  [Partition] above is the columns of a partition alone, and
    [latlong2osgbgrid_dask] above is the function on a partition with
    the default index, where the alignment stores the series position
    by position ([Indexed_latlong2osgbgrid_dask_default] below).

    A float column of the result holds [option T]: [None] is a null.
    The columns of the argument hold no nulls. *)
Module Indexed.

Record Frame (T : Type) : Type := {
  index : list Z;
  data : Partition T
}.
Arguments index {T} _.
Arguments data {T} _.

Section Assignment.
Context {T : Type} `{NumOps T}.

(** The entry at a label in a series with the default labels. *)
Definition at_label (values : list T) (label : Z) : option T :=
  if (label <? 0)%Z then None else values !! Z.to_nat label.

(** A series with the default labels, aligned on the labels of a
    frame. *)
Definition align (labels : list Z) (values : list T) : list (option T) :=
  at_label values <$> labels.

(** A column of the argument as a column that can hold nulls. *)
Definition nullable (c : Column T) : Column (option T) :=
  match c with
  | FloatCol xs => FloatCol (Some <$> xs)
  | StrCol xs => StrCol xs
  end.

Definition nullable_data (part : Partition T) : Partition (option T) :=
  (fun kc => (kc.1, nullable kc.2)) <$> part.

(** [cudf.Series(array)]: the values of the series; its labels are
    0, 1, ... *)
Definition Series (u : nd T) : result (list T) :=
  match u with
  | Array xs => Ok xs
  | Scalar _ => Raise ValueError
  end.

(** [frame[name] = series]: the column is placed as [setitem] places it,
    and holds the series aligned on the labels of the frame. *)
Definition setitem (frame : Frame (option T)) (name : string) (series : list T)
    : Frame (option T) :=
  {| index := index frame;
     data := setitem (data frame) name (FloatCol (align (index frame) series)) |}.

(** The function of the notebook (source lines 181-244) on a partition
    with its labels. *)
Definition latlong2osgbgrid_dask (part_df : Frame T)
    (lat_col long_col : string) (input_degrees : bool) : result (Frame (option T)) :=
  lat ← getitem (data part_df) lat_col ≫= asarray;
  long ← getitem (data part_df) long_col ≫= asarray;
  let '(northing, easting) := latlong2osgbgrid lat long input_degrees in
  let part_df := {| index := index part_df; data := nullable_data (data part_df) |} in
  northing ← Series northing;
  let part_df := setitem part_df "northing" northing in
  easting ← Series easting;
  let part_df := setitem part_df "easting" easting in
  mret part_df.
End Assignment.
End Indexed.


(** ** The real numbers as a carrier *)

(** The arithmetic of the kernel read in the real numbers: the formulas
    without rounding.  [x ** y] with a float exponent is the real power
    [Rpower], which is the power function on the positive bases the
    kernel applies it to. *)
#[export] Instance R_ops : NumOps R := {|
  flit := Q2R;
  fpi := PI;
  fadd := Rplus;
  fsub := Rminus;
  fmul := Rmult;
  fdiv := Rdiv;
  fpown := pow;
  fpowf := Rpower;
  fsin := sin;
  fcos := cos;
  ftan := tan
|}.

(** ** The projection as the specification words it *)

(** The parameters of a Transverse Mercator projection (section 3 of the
    specification). *)
Record ProjectionParameters : Type := {
  semiMajorAxis : R;
  semiMinorAxis : R;
  falseNorthing : R;
  falseEasting : R;
  scaleFactor : R;
  originLatitude : R;
  originLongitude : R
}.

(** The OSGB36 National Grid: the Airy 1830 ellipsoid and the true origin
    at 49 degrees north, 2 degrees west. *)
Definition OSGB36 : ProjectionParameters := {|
  semiMajorAxis := 6377563.396;
  semiMinorAxis := 6356256.909;
  falseNorthing := -100000;
  falseEasting := 400000;
  scaleFactor := 0.9996012717;
  originLatitude := 49 * PI / 180;
  originLongitude := -2 * PI / 180
|}.

(** A parameter set that differs from OSGB36 in its false easting. *)
Definition shifted_origin : ProjectionParameters := {|
  semiMajorAxis := 6377563.396;
  semiMinorAxis := 6356256.909;
  falseNorthing := -100000;
  falseEasting := 0;
  scaleFactor := 0.9996012717;
  originLatitude := 49 * PI / 180;
  originLongitude := -2 * PI / 180
|}.

Local Open Scope R_scope.

(** The contract [project] of section 4.1 of the specification for one
    point, following its steps 1 to 7 over the real numbers; the terms
    [I] to [VI] and the meridional arc [M] are those of the Ordnance
    Survey formulas for the Transverse Mercator projection.  It is
    written from the specification, to be compared with
    [latlong2osgbgrid]. *)
Definition spec_project (p : ProjectionParameters) (inputIsDegrees : bool)
    (lat long : R) : R * R :=
  let a := semiMajorAxis p in
  let b := semiMinorAxis p in
  let N0 := falseNorthing p in
  let E0 := falseEasting p in
  let F0 := scaleFactor p in
  let phi0 := originLatitude p in
  let lambda0 := originLongitude p in
  let phi := if inputIsDegrees then lat * PI / 180 else lat in
  let lambda := if inputIsDegrees then long * PI / 180 else long in
  let e2 := (a ^ 2 - b ^ 2) / a ^ 2 in
  let s := sin phi in
  let c := cos phi in
  let t := tan phi in
  let latdiff := phi - phi0 in
  let longdiff := lambda - lambda0 in
  let n := (a - b) / (a + b) in
  let w := 1 - e2 * s ^ 2 in
  let nu := a * F0 / sqrt w in
  let rho := a * F0 * (1 - e2) / (w * sqrt w) in
  let eta2 := nu / rho - 1 in
  let M := b * F0 *
    ((1 + n + 5 / 4 * n ^ 2 + 5 / 4 * n ^ 3) * latdiff
     - (3 * n + 3 * n ^ 2 + 21 / 8 * n ^ 3) * sin latdiff * cos (phi + phi0)
     + (15 / 8 * n ^ 2 + 15 / 8 * n ^ 3) * sin (2 * latdiff) * cos (2 * (phi + phi0))
     - 35 / 24 * n ^ 3 * sin (3 * latdiff) * cos (3 * (phi + phi0))) in
  let I := M + N0 in
  let II := nu / 2 * s * c in
  let III := nu / 24 * s * c ^ 3 * (5 - t ^ 2 + 9 * eta2) in
  let IIIA := nu / 720 * s * c ^ 5 * (61 - 58 * t ^ 2 + t ^ 4) in
  let IV := nu * c in
  let V := nu / 6 * c ^ 3 * (nu / rho - t ^ 2) in
  let VI := nu / 120 * c ^ 5 *
            (5 - 18 * t ^ 2 + t ^ 4 + 14 * eta2 - 58 * t ^ 2 * eta2) in
  (I + II * longdiff ^ 2 + III * longdiff ^ 4 + IIIA * longdiff ^ 6,
   E0 + IV * longdiff + V * longdiff ^ 3 + VI * longdiff ^ 5).
Local Close Scope R_scope.

(** ** Notebook 2-04: the infected rows *)

(** A cuDF dataframe with its index: the labels of the rows, and the
    columns, which all hold numbers here ([northing], [easting],
    [infected], and the labels that [reset_index()] moves into a
    column). *)
Record DataFrame : Type := {
  df_index : list Z;
  df_columns : list (string * list Q)
}.

(** [df[name]] *)
Fixpoint df_getitem_in (cols : list (string * list Q)) (name : string) : result (list Q) :=
  match cols with
  | [] => Raise (KeyError name)
  | (k, c) :: rest => if decide (k = name) then Ok c else df_getitem_in rest name
  end.

Definition df_getitem (df : DataFrame) (name : string) : result (list Q) :=
  df_getitem_in (df_columns df) name.

(** [column == x]: the boolean mask of the rows whose value is [x]. *)
Definition eq_scalar (column : list Q) (x : Q) : list bool :=
  (fun v => Qeq_bool v x) <$> column.

(** The entries of [xs] at the positions where the mask holds. *)
Fixpoint mask_select {A : Type} (mask : list bool) (xs : list A) : list A :=
  match mask, xs with
  | b :: mask, x :: xs => if b then x :: mask_select mask xs else mask_select mask xs
  | _, _ => []
  end.

(** [df.loc[mask]] and [df[mask]]: the rows where the mask holds, each
    with the label it had. *)
Definition loc (df : DataFrame) (mask : list bool) : DataFrame :=
  {| df_index := mask_select mask (df_index df);
     df_columns := (fun kc => (kc.1, mask_select mask kc.2)) <$> df_columns df |}.

(** [df.reset_index(drop=...)]: a new dataframe whose labels are
    0, 1, ...; unless [drop] is set, the old labels become the first
    column, named [index] (the name it gets on a frame that has no
    column of that name, as the frames of the notebook).  The dataframe
    [df] itself is not changed. *)
Definition reset_index (drop : bool) (df : DataFrame) : DataFrame :=
  {| df_index := Z.of_nat <$> seq 0 (length (df_index df));
     df_columns :=
       if drop then df_columns df
       else ("index", inject_Z <$> df_index df) :: df_columns df |}.

(** The exercise cell (source lines 356-357).  The dataframe returned by
    [reset_index] is not bound to a name: [infected_df] stays what [loc]
    returned. *)
Definition infected_df_exercise (gdf : DataFrame) : result DataFrame :=
  infected ← df_getitem gdf "infected";
  let infected_df := loc gdf (eq_scalar infected 1) in
  let _ := reset_index true infected_df in
  mret infected_df.

(** The solution cell (source line 464). *)
Definition infected_df_solution (gdf : DataFrame) : result DataFrame :=
  infected ← df_getitem gdf "infected";
  let infected_df := reset_index false (loc gdf (eq_scalar infected 1)) in
  mret infected_df.

(** ** DBSCAN *)

(** A point of the plane, in metres on the grid. *)
Record GridPoint : Type := {
  northing : Q;
  easting : Q
}.

Definition dist2 (p q : GridPoint) : Q :=
  (northing p - northing q) * (northing p - northing q) +
  (easting p - easting q) * (easting p - easting q).

(** The Euclidean distance. *)
Definition distance (p q : GridPoint) : R := sqrt (Q2R (dist2 p q)).

(** Modelled from the spec: the body of [cuml.DBSCAN] is not part of the
    sources, which only call it.  Section 4.3: [rangeQuery(point, eps)]
    is the set of the indices of the points within Euclidean distance
    [<= eps] of [point], the boundary included.  The distance is at most
    [eps] when [eps] is not negative and the squared distance is at most
    [eps * eps]. *)
Definition within_eps (eps : Q) (p q : GridPoint) : bool :=
  Qle_bool 0 eps && Qle_bool (dist2 p q) (eps * eps).

Definition within_eps_at (index : list GridPoint) (eps : Q) (p : GridPoint) (j : nat) : bool :=
  match index !! j with
  | Some q => within_eps eps p q
  | None => false
  end.

(** Modelled from the spec: [rangeQuery] of section 4.3 over an index
    built from the list of the points; the indices come in increasing
    order, each once. *)
Definition rangeQuery (index : list GridPoint) (p : GridPoint) (eps : Q) : list nat :=
  filter (fun j => within_eps_at index eps p j = true) (seq 0 (length index)).

(** The labels of section 4.4. *)
Inductive Label : Type :=
  | Unvisited
  | Noise
  | Assigned (clusterId : nat).

Definition absorbable (l : Label) : bool :=
  match l with
  | Unvisited | Noise => true
  | Assigned _ => false
  end.

(** The cluster id of a labelled point: -1 for noise. *)
Definition clusterId_of (l : Label) : Z :=
  match l with
  | Assigned c => Z.of_nat c
  | Unvisited | Noise => -1
  end.

(** What [cluster] answers instead of labels: a configuration error, or
    that the bound of the model on the steps of an expansion was reached
    (which never happens, see [cluster_returns]). *)
Inductive cluster_error : Type :=
  | ConfigurationError
  | StepBoundReached.

Section Clusterer.
Variable neighbors : nat -> list nat.
Variable minPts : nat.

Definition is_core (q : nat) : bool := minPts <=? length (neighbors q).

Definition assign_all (c : nat) (members : list nat) (labels : list Label) : list Label :=
  foldr (fun i ls => <[i := Assigned c]> ls) labels members.

Definition absorbable_at (labels : list Label) (r : nat) : bool :=
  match labels !! r with
  | Some l => absorbable l
  | None => false
  end.

(** Modelled from the spec: step 4 of section 4.4, the expansion of a
    cluster as a worklist (section 9).  For each point [q] of the
    worklist: if [q] is a core point, its neighbours that are unvisited
    or noise join cluster [c] and the worklist.  [fuel] bounds the
    number of points taken from the worklist. *)
Fixpoint expand (fuel : nat) (c : nat) (queue : list nat) (labels : list Label)
    : option (list Label) :=
  match fuel with
  | 0 => None
  | S fuel =>
      match queue with
      | [] => Some labels
      | q :: queue =>
          if is_core q then
            let fresh := filter (fun r => absorbable_at labels r = true) (neighbors q) in
            expand fuel c (queue ++ fresh) (assign_all c fresh labels)
          else expand fuel c queue labels
      end
  end.

(** Modelled from the spec: steps 2 to 4 of section 4.4 for the point
    [p]; the state is the labels and the next unused cluster id.  A core
    point found unvisited starts a cluster, which all of its neighbours
    join ("add all of neighbors to the cluster"), whatever their label
    was; the expansion then starts from these neighbours.  The fuel
    given to the expansion is more than the points it can take: the
    neighbours, and every point once more. *)
Definition visit (st : list Label * nat) (p : nat) : option (list Label * nat) :=
  let '(labels, next) := st in
  match labels !! p with
  | Some Unvisited =>
      if is_core p then
        let members := neighbors p in
        labels ← expand (S (length members + length labels)) next members
                   (assign_all next members labels);
        Some (labels, S next)
      else Some (<[p := Noise]> labels, next)
  | _ => Some st
  end.

Fixpoint visit_all (st : list Label * nat) (ps : list nat) : option (list Label * nat) :=
  match ps with
  | [] => Some st
  | p :: ps => st ← visit st p; visit_all st ps
  end.

(** Modelled from the spec: steps 1 and 5 of section 4.4: all points
    start unvisited and are taken in input order. *)
Definition dbscan (n : nat) : option (list Label * nat) :=
  visit_all (replicate n Unvisited, 0) (seq 0 n).

(** Three notions for the proofs.  The number of points that are not yet
    in a cluster. *)
Definition pending (labels : list Label) : nat :=
  length (filter (fun l => absorbable l = true) labels).

(** From [labels] to [labels'], the only change is that points that were
    unvisited or noise have joined cluster [c]. *)
Definition grows (c : nat) (labels labels' : list Label) : Prop :=
  length labels' = length labels /\
  forall i, labels' !! i = labels !! i \/
            (absorbable_at labels i = true /\ labels' !! i = Some (Assigned c)).

(** Every point in a cluster is a neighbour of a core point. *)
Definition reached (labels : list Label) : Prop :=
  forall i c, labels !! i = Some (Assigned c) ->
    exists q, is_core q = true /\ i ∈ neighbors q.

(** The neighbours of a core point that is in a cluster are in clusters,
    except, during an expansion, for the core points that wait in the
    worklist. *)
Definition closed_but (queue : list nat) (labels : list Label) : Prop :=
  forall i c, is_core i = true -> labels !! i = Some (Assigned c) ->
    i ∈ queue \/ forall r, r ∈ neighbors i -> exists d, labels !! r = Some (Assigned d).

(** The state of the clusterer after the points before [p] have been
    taken, for [n] points: the ids in use are those below the next
    unused id; no point before [p] is unvisited; no core point is noise;
    every point in a cluster is a neighbour of a core point, and the
    neighbours of a core point in a cluster are in clusters; and every
    cluster [c] has a seed, the core point it was started from, which is
    labelled [c], is the first of the core points labelled [c], and
    comes after the seeds of the clusters with smaller ids. *)
Definition clustered_upto (n p : nat) (st : list Label * nat) : Prop :=
  length st.1 = n /\
  (forall i c, st.1 !! i = Some (Assigned c) -> c < st.2) /\
  (forall i, i < p -> st.1 !! i <> Some Unvisited) /\
  (forall i, st.1 !! i = Some Noise -> is_core i = false) /\
  reached st.1 /\
  closed_but [] st.1 /\
  exists seeds,
    length seeds = st.2 /\
    (forall c c' s s', seeds !! c = Some s -> seeds !! c' = Some s' -> c < c' -> s < s') /\
    (forall c s, seeds !! c = Some s ->
       s < p /\ is_core s = true /\ st.1 !! s = Some (Assigned c) /\
       forall i, is_core i = true -> st.1 !! i = Some (Assigned c) -> s <= i).
End Clusterer.

(** The neighbourhoods of the points of an index. *)
Definition neighbors_of (index : list GridPoint) (eps : Q) (q : nat) : list nat :=
  match index !! q with
  | Some p => rangeQuery index p eps
  | None => []
  end.

(** Modelled from the spec: the contract [cluster(points, eps, minPts)]
    of section 4.4, from the index of a point to its cluster id, -1 for
    noise.  A negative [eps] and a [minPts] below 1 are configuration
    errors (sections 4.4 and 7).  [cluster_states] gives the final
    labels and the number of clusters. *)
Definition cluster_states (points : list GridPoint) (eps : Q) (minPts : Z)
    : option (list Label * nat) :=
  dbscan (neighbors_of points eps) (Z.to_nat minPts) (length points).

(** Modelled from the spec: the same contract with its labels as cluster
    ids and its configuration errors. *)
Definition cluster (points : list GridPoint) (eps : Q) (minPts : Z)
    : cluster_error + list Z :=
  if negb (Qle_bool 0 eps) || (minPts <? 1)%Z then inl ConfigurationError
  else match cluster_states points eps minPts with
       | Some (labels, _) => inr (clusterId_of <$> labels)
       | None => inl StepBoundReached
       end.

(** [infected_df[['northing', 'easting']]] as points; a missing column
    is reported by its name. *)
Definition points_of (df : DataFrame) : result (list GridPoint) :=
  ns ← df_getitem df "northing";
  es ← df_getitem df "easting";
  mret (zip_with (fun n e => {| northing := n; easting := e |}) ns es).

(** Modelled from the spec: [cuml.DBSCAN(eps=...).fit_predict(X)], whose
    body is not part of the sources.  The call of the notebook keeps the
    default [min_samples=5]; the result is the cluster ids of the rows
    of [X], in the order of the rows. *)
Definition fit_predict (eps : Q) (X : DataFrame) : result (cluster_error + list Z) :=
  points ← points_of X;
  mret (cluster points eps 5).

(** ** Sample data *)

(** Two rows: the true origin of the projection and the north pole, in
    degrees. *)
Definition origin_partition : Partition R :=
  [("lat", FloatCol [49%R; 90%R]); ("long", FloatCol [(-2)%R; 0%R])].

Definition origin_result : Partition R :=
  [("lat", FloatCol [49%R; 90%R]); ("long", FloatCol [(-2)%R; 0%R]);
   ("northing", FloatCol [(latlong2osgbgrid 49%R (-2)%R true).1;
                          (latlong2osgbgrid 90%R 0%R true).1]);
   ("easting", FloatCol [(latlong2osgbgrid 49%R (-2)%R true).2;
                         (latlong2osgbgrid 90%R 0%R true).2])].

(** A partition that already has a column named [northing]. *)
Definition stale_partition : Partition R :=
  [("northing", StrCol ["n/a"]); ("lat", FloatCol [49%R]); ("long", FloatCol [(-2)%R])].

(** Two rows of the population, the second one infected. *)
Definition sample_gdf : DataFrame :=
  {| df_index := [0; 1]%Z;
     df_columns := [("northing", [178547.296875; 595509.25]%Q);
                    ("easting", [368012.125; 426545.59375]%Q);
                    ("infected", [0; 1]%Q)] |}.

Definition grid_point (n e : Z) : GridPoint :=
  {| northing := inject_Z n; easting := inject_Z e |}.

(** The scenario of section 8 of the specification: a group of 8 points,
    a group of 10 points, and 2 isolated points. *)
Definition scenario_points : list GridPoint :=
  [grid_point 0 0; grid_point 100 0; grid_point 0 100; grid_point 100 100;
   grid_point 50 50; grid_point 200 0; grid_point 0 200; grid_point 200 200;
   grid_point 50000 0;
   grid_point 30000 30000; grid_point 30100 30000; grid_point 30000 30100;
   grid_point 30100 30100; grid_point 30050 30050; grid_point 30200 30000;
   grid_point 30000 30200; grid_point 30200 30200; grid_point 30300 30300;
   grid_point 30300 30000;
   grid_point 90000 90000].

Definition far_points : list GridPoint := [grid_point 0 0; grid_point 0 10].

(** ** Notebook 1-08: the address of the scheduler *)

Section Split.
Context {C : Type}.
Variable isspace : C -> bool.

(** [text.split()]: the maximal runs of characters that are not
    whitespace, from left to right; [word] holds, last character first,
    the run being read. *)
Fixpoint split_from (word : list C) (text : list C) : list (list C) :=
  match text with
  | [] => match word with
          | [] => []
          | _ => [reverse word]
          end
  | c :: text =>
      if isspace c then
        match word with
        | [] => split_from [] text
        | _ => reverse word :: split_from [] text
        end
      else split_from (c :: word) text
  end.

Definition split (text : list C) : list (list C) := split_from [] text.

(** [IPADDR = str(output.decode()).split()[0]] (source line 102), from
    the decoded output of the command; [None] is the [IndexError] that
    the index [0] raises on an empty list. *)
Definition IPADDR (output : list C) : option (list C) :=
  match split output with
  | [] => None
  | word :: _ => Some word
  end.
End Split.

(** The whitespace of [str.split] among the ASCII characters: tab, line
    feed, vertical tab, form feed, carriage return, the four separators
    28 to 31, and space. *)
Definition ascii_isspace (c : Ascii.ascii) : bool :=
  let n := Ascii.nat_of_ascii c in
  ((9 <=? n) && (n <=? 13)) || ((28 <=? n) && (n <=? 32)).

(** ** Notebook 2-04: frames and counts *)

(** The index that [read_csv] gives a frame of [n] rows. *)
Definition default_index (n : nat) : list Z := Z.of_nat <$> seq 0 n.

(** Every column of a dataframe, and its index, has the number of rows
    of the frame. *)
Definition wf_frame (n : nat) (df : DataFrame) : Prop :=
  length (df_index df) = n /\
  Forall (fun kc => length kc.2 = n) (df_columns df).

(** [series.nunique()]: the number of distinct values (source lines 359
    and 467, on the column of cluster ids). *)
Definition nunique (series : list Z) : nat := length (remove_dups series).

(** ** More sample data *)

(** A partition without a latitude column. *)
Definition no_lat_partition : Partition R :=
  [("county", StrCol ["Darlington"]); ("long", FloatCol [(-1.5)%R])].

(** A partition without a longitude column. *)
Definition no_long_partition : Partition R :=
  [("lat", FloatCol [54.5%R]); ("county", StrCol ["Darlington"])].

(** A partition with no rows. *)
Definition empty_partition : Partition R :=
  [("lat", FloatCol []); ("long", FloatCol [])].



(** The partition [origin_partition] with its labels, as [read_csv]
    gives it, and after the transform. *)
Definition origin_frame : Indexed.Frame R :=
  {| Indexed.index := [0; 1]%Z; Indexed.data := origin_partition |}.




(** Four rows of the population; the second and the fourth are
    infected. *)
Definition four_rows_gdf : DataFrame :=
  {| df_index := [0; 1; 2; 3]%Z;
     df_columns := [("northing", [178547.296875; 595509.25; 358293.6875; 185086.609375]%Q);
                    ("easting", [368012.125; 426545.59375; 435639.875; 547718]%Q);
                    ("infected", [0; 1; 0; 1]%Q)] |}.

Definition four_rows_infected : DataFrame :=
  {| df_index := [0; 1]%Z;
     df_columns := [("index", [1; 3]%Q);
                    ("northing", [595509.25; 185086.609375]%Q);
                    ("easting", [426545.59375; 547718]%Q);
                    ("infected", [1; 1]%Q)] |}.

(** The rows that the mask of the infected keeps, with their labels. *)
Definition four_rows_selected : DataFrame :=
  {| df_index := [1; 3]%Z;
     df_columns := [("northing", [595509.25; 185086.609375]%Q);
                    ("easting", [426545.59375; 547718]%Q);
                    ("infected", [1; 1]%Q)] |}.

(** A frame without the column [infected]. *)
Definition no_flag_gdf : DataFrame :=
  {| df_index := [0; 1]%Z;
     df_columns := [("northing", [178547.296875; 595509.25]%Q);
                    ("easting", [368012.125; 426545.59375]%Q)] |}.

(** What the command prints on a host with two addresses. *)
Definition hostname_output : list Ascii.ascii :=
  String.list_ascii_of_string "172.18.0.4 10.0.0.7 
".

(** ** Properties *)

Section BroadcastFacts.
Context {T : Type} `{NumOps T} {R : Type}.
Implicit Types (rows : list R) (g h : R -> T) (u v : nd T).

Lemma broadcasts_map (f : T -> T) rows g u :
  broadcasts rows g u -> broadcasts rows (fun r => f (g r)) (nd_map f u).
Proof.
  destruct u as [c|xs]; simpl.
  - intros Hc r. by rewrite Hc.
  - intros ->. by rewrite <- list_fmap_compose.
Qed.

Lemma broadcasts_map2 (f : T -> T -> T) rows g h u v :
  broadcasts rows g u -> broadcasts rows h v ->
  broadcasts rows (fun r => f (g r) (h r)) (nd_map2 f u v).
Proof.
  destruct u as [c|xs], v as [d|ys]; simpl.
  - intros Hc Hd r. by rewrite Hc, Hd.
  - intros Hc ->. rewrite <- list_fmap_compose.
    apply list_fmap_ext. intros i r _. simpl. by rewrite Hc.
  - intros -> Hd. rewrite <- list_fmap_compose.
    apply list_fmap_ext. intros i r _. simpl. by rewrite Hd.
  - intros -> ->. rewrite zip_with_fmap_l, zip_with_fmap_r.
    by rewrite zip_with_diag.
Qed.

Lemma broadcasts_lit rows q : broadcasts rows (fun _ => flit q : T) (flit q).
Proof. by intros r. Qed.

Lemma broadcasts_pi rows : broadcasts rows (fun _ => fpi : T) fpi.
Proof. by intros r. Qed.

Lemma broadcasts_add rows g h u v :
  broadcasts rows g u -> broadcasts rows h v ->
  broadcasts rows (fun r => fadd (g r) (h r)) (fadd u v).
Proof. apply broadcasts_map2. Qed.

Lemma broadcasts_sub rows g h u v :
  broadcasts rows g u -> broadcasts rows h v ->
  broadcasts rows (fun r => fsub (g r) (h r)) (fsub u v).
Proof. apply broadcasts_map2. Qed.

Lemma broadcasts_mul rows g h u v :
  broadcasts rows g u -> broadcasts rows h v ->
  broadcasts rows (fun r => fmul (g r) (h r)) (fmul u v).
Proof. apply broadcasts_map2. Qed.

Lemma broadcasts_div rows g h u v :
  broadcasts rows g u -> broadcasts rows h v ->
  broadcasts rows (fun r => fdiv (g r) (h r)) (fdiv u v).
Proof. apply broadcasts_map2. Qed.

Lemma broadcasts_powf rows g h u v :
  broadcasts rows g u -> broadcasts rows h v ->
  broadcasts rows (fun r => fpowf (g r) (h r)) (fpowf u v).
Proof. apply broadcasts_map2. Qed.

Lemma broadcasts_pown rows g u k :
  broadcasts rows g u -> broadcasts rows (fun r => fpown (g r) k) (fpown u k).
Proof. apply (broadcasts_map (fun x => fpown x k)). Qed.

Lemma broadcasts_sin rows g u :
  broadcasts rows g u -> broadcasts rows (fun r => fsin (g r)) (fsin u).
Proof. apply (broadcasts_map fsin). Qed.

Lemma broadcasts_cos rows g u :
  broadcasts rows g u -> broadcasts rows (fun r => fcos (g r)) (fcos u).
Proof. apply (broadcasts_map fcos). Qed.

Lemma broadcasts_tan rows g u :
  broadcasts rows g u -> broadcasts rows (fun r => ftan (g r)) (ftan u).
Proof. apply (broadcasts_map ftan). Qed.

Ltac broadcast_step :=
  lazymatch goal with
  | |- broadcasts _ _ (flit _) => apply broadcasts_lit
  | |- broadcasts _ _ fpi => apply broadcasts_pi
  | |- broadcasts _ _ (fadd _ _) => simple refine (broadcasts_add _ _ _ _ _ _ _)
  | |- broadcasts _ _ (fsub _ _) => simple refine (broadcasts_sub _ _ _ _ _ _ _)
  | |- broadcasts _ _ (fmul _ _) => simple refine (broadcasts_mul _ _ _ _ _ _ _)
  | |- broadcasts _ _ (fdiv _ _) => simple refine (broadcasts_div _ _ _ _ _ _ _)
  | |- broadcasts _ _ (fpowf _ _) => simple refine (broadcasts_powf _ _ _ _ _ _ _)
  | |- broadcasts _ _ (fpown _ _) => simple refine (broadcasts_pown _ _ _ _ _)
  | |- broadcasts _ _ (fsin _) => simple refine (broadcasts_sin _ _ _ _)
  | |- broadcasts _ _ (fcos _) => simple refine (broadcasts_cos _ _ _ _)
  | |- broadcasts _ _ (ftan _) => simple refine (broadcasts_tan _ _ _ _)
  | |- broadcasts _ _ _ => eassumption
  end.

(** The kernel has no dependency between positions: run on arrays, it
    gives at each position what it gives on the scalars found there. *)
Lemma latlong2osgbgrid_broadcasts rows g h u v deg :
  broadcasts rows g u -> broadcasts rows h v ->
  broadcasts rows (fun r => (latlong2osgbgrid (g r) (h r) deg).1)
                  (latlong2osgbgrid u v deg).1 /\
  broadcasts rows (fun r => (latlong2osgbgrid (g r) (h r) deg).2)
                  (latlong2osgbgrid u v deg).2.
Proof.
  intros Hu Hv. cbv beta zeta iota delta [latlong2osgbgrid fst snd].
  destruct deg; split; repeat broadcast_step.
Qed.
End BroadcastFacts.

Section FrameFacts.
Context {T : Type} `{NumOps T}.
Implicit Types (part out : Partition T) (c : Column T) (name : string).

Lemma latlong2osgbgrid_is_array (lats : list T) (v : nd T) deg :
  exists ns es, latlong2osgbgrid (Array lats) v deg = (Array ns, Array es).
Proof.
  destruct v, deg;
    cbv beta zeta iota delta
      [latlong2osgbgrid nd_ops nd_map nd_map2
       flit fpi fadd fsub fmul fdiv fpown fpowf fsin fcos ftan];
    do 2 eexists; reflexivity.
Qed.

Lemma kernel_result_inj (ns es ns' es' : list T) :
  (Array ns, Array es) = (Array ns', Array es') -> ns = ns' /\ es = es'.
Proof. by intros [= -> ->]. Qed.

Lemma latlong2osgbgrid_arrays (lats longs : list T) deg :
  length lats = length longs ->
  latlong2osgbgrid (Array lats) (Array longs) deg =
    (Array (zip_with (fun la lo : T => (latlong2osgbgrid la lo deg).1) lats longs),
     Array (zip_with (fun la lo : T => (latlong2osgbgrid la lo deg).2) lats longs)).
Proof.
  intros Hlen.
  assert (Hu : broadcasts (zip lats longs) fst (Array lats)).
  { unfold broadcasts. rewrite fst_zip; [reflexivity | lia]. }
  assert (Hv : broadcasts (zip lats longs) snd (Array longs)).
  { unfold broadcasts. rewrite snd_zip; [reflexivity | lia]. }
  pose proof (latlong2osgbgrid_broadcasts _ _ _ _ _ deg Hu Hv) as [Hn He].
  destruct (latlong2osgbgrid_is_array lats (Array longs) deg) as (ns & es & Heq).
  rewrite Heq in Hn, He |- *.
  unfold broadcasts in Hn, He. cbn [fst snd] in Hn, He. subst ns es.
  f_equal; f_equal; symmetry;
    (etrans; [apply zip_with_zip |]);
    apply list_fmap_ext; intros i [la lo] _; reflexivity.
Qed.

(** *** Reading and writing columns *)

Lemma getitem_setitem_eq part name c : getitem (setitem part name c) name = Ok c.
Proof.
  induction part as [|[k d] part IH]; simpl.
  - by rewrite decide_True.
  - destruct (decide (k = name)) as [->|Hne]; simpl.
    + by rewrite decide_True.
    + by rewrite decide_False.
Qed.

Lemma getitem_setitem_ne part name name' c :
  name <> name' -> getitem (setitem part name c) name' = getitem part name'.
Proof.
  intros Hne. induction part as [|[k d] part IH]; simpl.
  - by rewrite decide_False.
  - destruct (decide (k = name)) as [->|Hk]; simpl.
    + by rewrite !decide_False.
    + by rewrite IH.
Qed.

Lemma wf_setitem n part name c :
  wf_partition n part -> col_length c = n -> wf_partition n (setitem part name c).
Proof.
  unfold wf_partition. intros Hwf Hc.
  induction Hwf as [|[k d] part Hd Hwf IH]; simpl.
  - by repeat constructor.
  - destruct (decide (k = name)); constructor; auto.
Qed.

Lemma wf_getitem n part name c :
  wf_partition n part -> getitem part name = Ok c -> col_length c = n.
Proof.
  unfold wf_partition. intros Hwf.
  induction Hwf as [|[k d] part Hd Hwf IH]; simpl; [done|].
  destruct (decide (k = name)); [|done]. by intros [= <-].
Qed.

Lemma setitem_nonempty part name c : setitem part name c <> [].
Proof. destruct part as [|[k d] part]; simpl; [done|]. by destruct (decide _). Qed.

Lemma getitem_nonempty part name c : getitem part name = Ok c -> part <> [].
Proof. by destruct part. Qed.

Lemma wf_nrows n part : wf_partition n part -> part <> [] -> nrows part = n.
Proof. intros Hwf Hne. destruct Hwf as [|[k d] part Hd _]; [done|]. exact Hd. Qed.

(** A column that is not assigned to stays where it is, as it is. *)
Lemma setitem_lookup_ne part name c j k d :
  k <> name -> part !! j = Some (k, d) -> setitem part name c !! j = Some (k, d).
Proof.
  intros Hne. revert j. induction part as [|[k' d'] part IH]; intros j; [done|].
  simpl. destruct (decide (k' = name)) as [->|Hk'].
  - destruct j; simpl; [|done]. intros [= -> ->]. done.
  - destruct j; simpl; [done|]. apply IH.
Qed.

(** Assigning to a new name adds the column on the right. *)
Lemma setitem_fresh part name c :
  name ∉ columns part -> setitem part name c = part ++ [(name, c)].
Proof.
  unfold columns. induction part as [|[k d] part IH]; simpl; [done|].
  intros Hnotin. apply not_elem_of_cons in Hnotin as [Hne Hnotin].
  rewrite decide_False by done. f_equal. by apply IH.
Qed.

(** Assigning to an existing name keeps the names of the columns and
    their order. *)
Lemma setitem_columns_present part name c :
  name ∈ columns part -> columns (setitem part name c) = columns part.
Proof.
  unfold columns. induction part as [|[k d] part IH]; simpl.
  - by intros ?%elem_of_nil.
  - intros Hin. destruct (decide (k = name)) as [->|Hne]; simpl; [done|].
    apply elem_of_cons in Hin as [->|Hin]; [done|]. f_equal. by apply IH.
Qed.

Lemma setitem_same part name c :
  getitem part name = Ok c -> setitem part name c = part.
Proof.
  induction part as [|[k d] part IH]; simpl; [done|].
  destruct (decide (k = name)) as [->|Hne].
  - by intros [= ->].
  - intros Hget. by rewrite IH.
Qed.

(** *** The transform, step by step *)

Lemma latlong2osgbgrid_dask_ok part lat_col long_col deg lats longs :
  getitem part lat_col = Ok (FloatCol lats) ->
  getitem part long_col = Ok (FloatCol longs) ->
  exists ns es,
    latlong2osgbgrid (Array lats) (Array longs) deg = (Array ns, Array es) /\
    latlong2osgbgrid_dask part lat_col long_col deg =
      Ok (setitem (setitem part "northing" (FloatCol ns)) "easting" (FloatCol es)).
Proof.
  intros Hlat Hlong.
  destruct (latlong2osgbgrid_is_array lats (Array longs) deg) as (ns & es & Heq).
  exists ns, es. split; [done|].
  unfold latlong2osgbgrid_dask. rewrite Hlat, Hlong.
  cbn [mbind result_bind asarray]. rewrite Heq. reflexivity.
Qed.

Lemma latlong2osgbgrid_dask_inv part lat_col long_col deg out :
  latlong2osgbgrid_dask part lat_col long_col deg = Ok out ->
  exists lats longs,
    getitem part lat_col = Ok (FloatCol lats) /\
    getitem part long_col = Ok (FloatCol longs).
Proof.
  unfold latlong2osgbgrid_dask.
  destruct (getitem part lat_col) as [[lats|?]|?]; cbn [mbind result_bind asarray];
    [|done..].
  destruct (getitem part long_col) as [[longs|?]|?]; cbn [mbind result_bind asarray];
    [|done..].
  eauto.
Qed.

Lemma cell_float part name xs i :
  getitem part name = Ok (FloatCol xs) -> cell part name i = FloatCell <$> xs !! i.
Proof. intros Hget. unfold cell. rewrite Hget. simpl. apply list_lookup_fmap. Qed.
End FrameFacts.

Section TransformFacts.
Context {T : Type} `{NumOps T}.
Implicit Types (part out : Partition T) (c : Column T) (name : string).

(** On the columns alone, that is with the default index: whenever
    [latlong2osgbgrid_dask] returns, the partition it returns has the
    number of rows of its argument, and in every row [i] the northing and
    the easting are the kernel applied to the latitude and the longitude
    found in row [i] of the argument. *)
Lemma latlong2osgbgrid_dask_rowwise part lat_col long_col deg n out :
  wf_partition n part ->
  latlong2osgbgrid_dask part lat_col long_col deg = Ok out ->
  wf_partition n out /\ nrows out = nrows part /\
  forall i, i < n ->
    exists la lo,
      cell part lat_col i = Some (FloatCell la) /\
      cell part long_col i = Some (FloatCell lo) /\
      cell out "northing" i = Some (FloatCell (latlong2osgbgrid la lo deg).1) /\
      cell out "easting" i = Some (FloatCell (latlong2osgbgrid la lo deg).2).
Proof.
  intros Hwf Hout.
  destruct (latlong2osgbgrid_dask_inv _ _ _ _ _ Hout) as (lats & longs & Hlat & Hlong).
  destruct (latlong2osgbgrid_dask_ok _ _ _ deg _ _ Hlat Hlong) as (ns & es & Heq & Hrun).
  rewrite Hrun in Hout. injection Hout as <-.
  pose proof (wf_getitem _ _ _ _ Hwf Hlat) as Hnlat.
  pose proof (wf_getitem _ _ _ _ Hwf Hlong) as Hnlong.
  simpl in Hnlat, Hnlong.
  rewrite latlong2osgbgrid_arrays in Heq by congruence.
  apply kernel_result_inj in Heq as [<- <-].
  assert (Hwf' : wf_partition n
            (setitem (setitem part "northing"
               (FloatCol (zip_with (fun la lo : T => (latlong2osgbgrid la lo deg).1) lats longs)))
               "easting"
               (FloatCol (zip_with (fun la lo : T => (latlong2osgbgrid la lo deg).2) lats longs)))).
  { apply wf_setitem; [apply wf_setitem; [done|]|]; simpl;
      rewrite length_zip_with; lia. }
  split; [exact Hwf'|]. split.
  { rewrite (wf_nrows n) by (done || apply setitem_nonempty).
    symmetry. apply wf_nrows; [done|]. by eapply getitem_nonempty. }
  intros i Hi.
  destruct (lookup_lt_is_Some_2 lats i) as [la Hla]; [lia|].
  destruct (lookup_lt_is_Some_2 longs i) as [lo Hlo]; [lia|].
  exists la, lo.
  rewrite (cell_float _ _ _ _ Hlat), (cell_float _ _ _ _ Hlong), Hla, Hlo.
  split; [done|]. split; [done|]. split.
  - erewrite cell_float.
    2:{ rewrite getitem_setitem_ne by done. apply getitem_setitem_eq. }
    rewrite lookup_zip_with, Hla. simpl. by rewrite Hlo.
  - erewrite cell_float by apply getitem_setitem_eq.
    rewrite lookup_zip_with, Hla. simpl. by rewrite Hlo.
Qed.

(** C2.  On a partition whose latitude and longitude columns are float
    columns, [latlong2osgbgrid_dask] returns a partition, whatever the
    values in these columns are: the kernel has no case distinction on
    its input and none of its operations raises.  The values it computes
    are stored as they are in the float columns [northing] and
    [easting]. *)
Theorem latlong2osgbgrid_dask_total part lat_col long_col deg lats longs :
  getitem part lat_col = Ok (FloatCol lats) ->
  getitem part long_col = Ok (FloatCol longs) ->
  exists out ns es,
    latlong2osgbgrid_dask part lat_col long_col deg = Ok out /\
    latlong2osgbgrid (Array lats) (Array longs) deg = (Array ns, Array es) /\
    getitem out "northing" = Ok (FloatCol ns) /\
    getitem out "easting" = Ok (FloatCol es).
Proof.
  intros Hlat Hlong.
  destruct (latlong2osgbgrid_dask_ok _ _ _ deg _ _ Hlat Hlong) as (ns & es & Heq & Hrun).
  eexists _, ns, es. split; [exact Hrun|]. split; [exact Heq|]. split.
  - rewrite getitem_setitem_ne by done. apply getitem_setitem_eq.
  - apply getitem_setitem_eq.
Qed.

Lemma columns_setitem part name c :
  columns (setitem part name c) =
    columns part ++ (if decide (name ∈ columns part) then [] else [name]).
Proof.
  destruct (decide (name ∈ columns part)) as [Hin|Hnotin].
  - rewrite setitem_columns_present by done. by rewrite app_nil_r.
  - rewrite setitem_fresh by done. unfold columns. by rewrite fmap_app.
Qed.

(** The names of the columns after the transform: those of the argument,
    in their order, followed by those of [northing] and [easting] that
    the argument did not have. *)
Lemma latlong2osgbgrid_dask_columns part lat_col long_col deg out :
  latlong2osgbgrid_dask part lat_col long_col deg = Ok out ->
  columns out =
    columns part ++ filter (fun k => k ∉ columns part) ["northing"; "easting"].
Proof.
  intros Hout.
  destruct (latlong2osgbgrid_dask_inv _ _ _ _ _ Hout) as (lats & longs & Hlat & Hlong).
  destruct (latlong2osgbgrid_dask_ok _ _ _ deg _ _ Hlat Hlong) as (ns & es & _ & Hrun).
  rewrite Hrun in Hout. injection Hout as <-.
  rewrite !columns_setitem. rewrite <- app_assoc. f_equal.
  rewrite !filter_cons, filter_nil.
  destruct (decide ("northing" ∈ columns part)) as [Hn|Hn];
    destruct (decide ("easting" ∈ columns part)) as [He|He].
  - rewrite decide_True by (apply elem_of_app; auto).
    rewrite !decide_False by auto. done.
  - rewrite (decide_False (P := "easting" ∈ _ ++ _)).
    2:{ rewrite elem_of_app, elem_of_nil. tauto. }
    rewrite decide_False by auto. rewrite decide_True by done. done.
  - rewrite decide_True by (apply elem_of_app; auto).
    rewrite decide_True by done. rewrite decide_False by auto. done.
  - rewrite (decide_False (P := "easting" ∈ _ ++ _)).
    2:{ rewrite elem_of_app, list_elem_of_singleton. intros [?|?]; done. }
    rewrite !decide_True by done. done.
Qed.

(** Running the transform on its own result changes nothing, provided the
    coordinates are not read from the columns it writes. *)
Lemma latlong2osgbgrid_dask_again part lat_col long_col deg out :
  lat_col <> "northing" -> lat_col <> "easting" ->
  long_col <> "northing" -> long_col <> "easting" ->
  latlong2osgbgrid_dask part lat_col long_col deg = Ok out ->
  latlong2osgbgrid_dask out lat_col long_col deg = Ok out.
Proof.
  intros Hlatn Hlate Hlongn Hlonge Hout.
  destruct (latlong2osgbgrid_dask_inv _ _ _ _ _ Hout) as (lats & longs & Hlat & Hlong).
  destruct (latlong2osgbgrid_dask_ok _ _ _ deg _ _ Hlat Hlong) as (ns & es & Heq & Hrun).
  rewrite Hrun in Hout. injection Hout as <-.
  set (out := setitem (setitem part "northing" (FloatCol ns)) "easting" (FloatCol es)).
  assert (Hlat' : getitem out lat_col = Ok (FloatCol lats)).
  { unfold out. by rewrite !getitem_setitem_ne. }
  assert (Hlong' : getitem out long_col = Ok (FloatCol longs)).
  { unfold out. by rewrite !getitem_setitem_ne. }
  destruct (latlong2osgbgrid_dask_ok _ _ _ deg _ _ Hlat' Hlong')
    as (ns' & es' & Heq' & Hrun').
  rewrite Heq in Heq'. injection Heq' as <- <-.
  rewrite Hrun'. f_equal.
  rewrite (setitem_same out "northing").
  - apply setitem_same, getitem_setitem_eq.
  - unfold out. rewrite getitem_setitem_ne by done. apply getitem_setitem_eq.
Qed.

(** C10, as amended.  The transform writes the columns [northing] and
    [easting] and nothing else: a column with another name keeps its
    place and its values; the names of the columns are those of the
    argument followed by the new ones among [northing] and [easting]; when
    the argument has neither, the result is the argument with the two
    columns added on the right; and running the transform again on the
    result gives the result. *)
Theorem latlong2osgbgrid_dask_frame part lat_col long_col deg out :
  latlong2osgbgrid_dask part lat_col long_col deg = Ok out ->
  (forall j k d, part !! j = Some (k, d) -> k <> "northing" -> k <> "easting" ->
     out !! j = Some (k, d)) /\
  columns out =
    columns part ++ filter (fun k => k ∉ columns part) ["northing"; "easting"] /\
  ("northing" ∉ columns part -> "easting" ∉ columns part ->
     exists ns es, out = part ++ [("northing", FloatCol ns); ("easting", FloatCol es)]) /\
  (lat_col <> "northing" -> lat_col <> "easting" ->
   long_col <> "northing" -> long_col <> "easting" ->
     latlong2osgbgrid_dask out lat_col long_col deg = Ok out).
Proof.
  intros Hout. split; [|split; [|split]].
  - destruct (latlong2osgbgrid_dask_inv _ _ _ _ _ Hout) as (lats & longs & Hlat & Hlong).
    destruct (latlong2osgbgrid_dask_ok _ _ _ deg _ _ Hlat Hlong) as (ns & es & _ & Hrun).
    rewrite Hrun in Hout. injection Hout as <-.
    intros j k d Hj Hkn Hke.
    apply setitem_lookup_ne; [done|]. by apply setitem_lookup_ne.
  - by eapply latlong2osgbgrid_dask_columns.
  - intros Hn He.
    destruct (latlong2osgbgrid_dask_inv _ _ _ _ _ Hout) as (lats & longs & Hlat & Hlong).
    destruct (latlong2osgbgrid_dask_ok _ _ _ deg _ _ Hlat Hlong) as (ns & es & _ & Hrun).
    rewrite Hrun in Hout. injection Hout as <-.
    exists ns, es. rewrite (setitem_fresh part) by done.
    rewrite setitem_fresh.
    + by rewrite <- app_assoc.
    + unfold columns. rewrite fmap_app. simpl.
      rewrite elem_of_app, list_elem_of_singleton. intros [?|?]; done.
  - intros. by eapply latlong2osgbgrid_dask_again.
Qed.

(** *** Cutting a frame into partitions *)

(** What the transform returns on a well-formed partition, in closed
    form. *)
Lemma latlong2osgbgrid_dask_closed_form part lat_col long_col deg n out :
  wf_partition n part ->
  latlong2osgbgrid_dask part lat_col long_col deg = Ok out ->
  exists lats longs,
    getitem part lat_col = Ok (FloatCol lats) /\
    getitem part long_col = Ok (FloatCol longs) /\
    length lats = n /\ length longs = n /\
    out = setitem (setitem part "northing"
            (FloatCol (zip_with (fun la lo : T => (latlong2osgbgrid la lo deg).1) lats longs)))
            "easting"
            (FloatCol (zip_with (fun la lo : T => (latlong2osgbgrid la lo deg).2) lats longs)).
Proof.
  intros Hwf Hout.
  destruct (latlong2osgbgrid_dask_inv _ _ _ _ _ Hout) as (lats & longs & Hlat & Hlong).
  destruct (latlong2osgbgrid_dask_ok _ _ _ deg _ _ Hlat Hlong) as (ns & es & Heq & Hrun).
  rewrite Hrun in Hout. injection Hout as <-.
  pose proof (wf_getitem _ _ _ _ Hwf Hlat) as Hnlat.
  pose proof (wf_getitem _ _ _ _ Hwf Hlong) as Hnlong.
  simpl in Hnlat, Hnlong.
  rewrite latlong2osgbgrid_arrays in Heq by congruence.
  apply kernel_result_inj in Heq as [<- <-]. by exists lats, longs.
Qed.

Lemma latlong2osgbgrid_dask_values part lat_col long_col deg lats longs :
  getitem part lat_col = Ok (FloatCol lats) ->
  getitem part long_col = Ok (FloatCol longs) ->
  length lats = length longs ->
  exists out,
    latlong2osgbgrid_dask part lat_col long_col deg = Ok out /\
    getitem out "northing" =
      Ok (FloatCol (zip_with (fun la lo : T => (latlong2osgbgrid la lo deg).1) lats longs)) /\
    getitem out "easting" =
      Ok (FloatCol (zip_with (fun la lo : T => (latlong2osgbgrid la lo deg).2) lats longs)).
Proof.
  intros Hlat Hlong Hlen.
  destruct (latlong2osgbgrid_dask_ok _ _ _ deg _ _ Hlat Hlong) as (ns & es & Heq & Hrun).
  rewrite latlong2osgbgrid_arrays in Heq by done.
  apply kernel_result_inj in Heq as [<- <-].
  eexists. split; [exact Hrun|]. split.
  - rewrite getitem_setitem_ne by done. apply getitem_setitem_eq.
  - apply getitem_setitem_eq.
Qed.

Lemma latlong2osgbgrid_dask_wf part lat_col long_col deg n out :
  wf_partition n part ->
  latlong2osgbgrid_dask part lat_col long_col deg = Ok out ->
  wf_partition n out.
Proof.
  intros Hwf Hout.
  destruct (latlong2osgbgrid_dask_closed_form _ _ _ _ _ _ Hwf Hout)
    as (lats & longs & _ & _ & Hnlat & Hnlong & ->).
  apply wf_setitem; [apply wf_setitem; [done|]|]; simpl;
    rewrite length_zip_with; lia.
Qed.

Lemma col_length_take k c : col_length (col_take k c) = min k (col_length c).
Proof. destruct c; simpl; apply length_take. Qed.

Lemma col_length_drop k c : col_length (col_drop k c) = col_length c - k.
Proof. destruct c; simpl; apply length_drop. Qed.

Lemma col_cells_take k c : col_cells (col_take k c) = take k (col_cells c).
Proof. destruct c; simpl; apply fmap_take. Qed.

Lemma col_cells_drop k c : col_cells (col_drop k c) = drop k (col_cells c).
Proof. destruct c; simpl; apply fmap_drop. Qed.

Lemma wf_head_rows k n part :
  wf_partition n part -> wf_partition (min k n) (head_rows k part).
Proof.
  unfold wf_partition, head_rows. intros Hwf. apply Forall_fmap.
  eapply Forall_impl; [exact Hwf|]. intros [name c]; simpl.
  intros <-. apply col_length_take.
Qed.

Lemma wf_tail_rows k n part :
  wf_partition n part -> wf_partition (n - k) (tail_rows k part).
Proof.
  unfold wf_partition, tail_rows. intros Hwf. apply Forall_fmap.
  eapply Forall_impl; [exact Hwf|]. intros [name c]; simpl.
  intros <-. apply col_length_drop.
Qed.

Lemma getitem_head_rows k part name c :
  getitem part name = Ok c -> getitem (head_rows k part) name = Ok (col_take k c).
Proof.
  induction part as [|[k' d] part IH]; simpl; [done|].
  destruct (decide (k' = name)); [|done]. by intros [= ->].
Qed.

Lemma getitem_tail_rows k part name c :
  getitem part name = Ok c -> getitem (tail_rows k part) name = Ok (col_drop k c).
Proof.
  induction part as [|[k' d] part IH]; simpl; [done|].
  destruct (decide (k' = name)); [|done]. by intros [= ->].
Qed.

Lemma head_rows_setitem k part name c :
  head_rows k (setitem part name c) = setitem (head_rows k part) name (col_take k c).
Proof.
  induction part as [|[k' d] part IH]; simpl; [done|].
  destruct (decide (k' = name)); simpl; [done|]. f_equal. apply IH.
Qed.

Lemma tail_rows_setitem k part name c :
  tail_rows k (setitem part name c) = setitem (tail_rows k part) name (col_drop k c).
Proof.
  induction part as [|[k' d] part IH]; simpl; [done|].
  destruct (decide (k' = name)); simpl; [done|]. f_equal. apply IH.
Qed.

(** The transform of the first [k] rows is the first [k] rows of the
    transform, and likewise for the rows after them. *)
Lemma latlong2osgbgrid_dask_head_rows k part lat_col long_col deg n out :
  wf_partition n part ->
  latlong2osgbgrid_dask part lat_col long_col deg = Ok out ->
  latlong2osgbgrid_dask (head_rows k part) lat_col long_col deg = Ok (head_rows k out).
Proof.
  intros Hwf Hout.
  destruct (latlong2osgbgrid_dask_closed_form _ _ _ _ _ _ Hwf Hout)
    as (lats & longs & Hlat & Hlong & Hnlat & Hnlong & ->).
  pose proof (getitem_head_rows k _ _ _ Hlat) as Hlat'.
  pose proof (getitem_head_rows k _ _ _ Hlong) as Hlong'.
  simpl in Hlat', Hlong'.
  destruct (latlong2osgbgrid_dask_ok _ _ _ deg _ _ Hlat' Hlong') as (ns & es & Heq & ->).
  rewrite latlong2osgbgrid_arrays in Heq by (rewrite !length_take; lia).
  apply kernel_result_inj in Heq as [<- <-].
  rewrite !head_rows_setitem. simpl. by rewrite !zip_with_take.
Qed.

Lemma latlong2osgbgrid_dask_tail_rows k part lat_col long_col deg n out :
  wf_partition n part ->
  latlong2osgbgrid_dask part lat_col long_col deg = Ok out ->
  latlong2osgbgrid_dask (tail_rows k part) lat_col long_col deg = Ok (tail_rows k out).
Proof.
  intros Hwf Hout.
  destruct (latlong2osgbgrid_dask_closed_form _ _ _ _ _ _ Hwf Hout)
    as (lats & longs & Hlat & Hlong & Hnlat & Hnlong & ->).
  pose proof (getitem_tail_rows k _ _ _ Hlat) as Hlat'.
  pose proof (getitem_tail_rows k _ _ _ Hlong) as Hlong'.
  simpl in Hlat', Hlong'.
  destruct (latlong2osgbgrid_dask_ok _ _ _ deg _ _ Hlat' Hlong') as (ns & es & Heq & ->).
  rewrite latlong2osgbgrid_arrays in Heq by (rewrite !length_drop; lia).
  apply kernel_result_inj in Heq as [<- <-].
  rewrite !tail_rows_setitem. simpl. by rewrite !zip_with_drop.
Qed.

Lemma rows_of_head_rows k n part :
  rows_of (min k n) (head_rows k part) = take k (rows_of n part).
Proof.
  induction part as [|[name c] part IH]; simpl.
  - by rewrite take_replicate.
  - rewrite IH, col_cells_take. by rewrite zip_with_take.
Qed.

Lemma rows_of_tail_rows k n part :
  rows_of (n - k) (tail_rows k part) = drop k (rows_of n part).
Proof.
  induction part as [|[name c] part IH]; simpl.
  - by rewrite drop_replicate.
  - rewrite IH, col_cells_drop. by rewrite zip_with_drop.
Qed.

Lemma nrows_head_rows k part : nrows (head_rows k part) = min k (nrows part).
Proof. destruct part as [|[name c] part]; simpl; [lia|]. apply col_length_take. Qed.

Lemma nrows_tail_rows k part : nrows (tail_rows k part) = nrows part - k.
Proof. destruct part as [|[name c] part]; simpl; [lia|]. apply col_length_drop. Qed.

Lemma rows_head_tail k part :
  rows (head_rows k part) ++ rows (tail_rows k part) = rows part.
Proof.
  unfold rows. rewrite nrows_head_rows, nrows_tail_rows.
  rewrite rows_of_head_rows, rows_of_tail_rows. apply take_drop.
Qed.

(** Cutting a frame and putting the rows of the pieces one after the
    other gives back the rows of the frame. *)
Lemma compute_rows_repartition sizes part :
  compute_rows (repartition sizes part) = rows part.
Proof.
  revert part. induction sizes as [|k sizes IH]; intros part.
  - unfold compute_rows. simpl. apply app_nil_r.
  - unfold compute_rows in *. simpl. rewrite IH. apply rows_head_tail.
Qed.

Lemma length_repartition sizes part : length (repartition sizes part) = S (length sizes).
Proof. revert part. induction sizes; intros part; simpl; [done|]. by rewrite IHsizes. Qed.

Lemma map_partitions_cons (f : Partition T -> result (Partition T)) part ddf out outs :
  f part = Ok out -> map_partitions f ddf = Ok outs ->
  map_partitions f (part :: ddf) = Ok (out :: outs).
Proof.
  unfold map_partitions. intros Hf Hrest. simpl. rewrite Hf. simpl.
  by rewrite Hrest.
Qed.

(** Mapping the transform over the pieces of a frame gives the pieces of
    the transformed frame. *)
Lemma map_partitions_repartition sizes part lat_col long_col deg n out :
  wf_partition n part ->
  latlong2osgbgrid_dask part lat_col long_col deg = Ok out ->
  map_partitions (fun p => latlong2osgbgrid_dask p lat_col long_col deg)
                 (repartition sizes part) = Ok (repartition sizes out).
Proof.
  revert part n out. induction sizes as [|k sizes IH]; intros part n out Hwf Hout.
  - simpl. unfold map_partitions. simpl. by rewrite Hout.
  - cbn [repartition]. apply map_partitions_cons.
    + by eapply latlong2osgbgrid_dask_head_rows.
    + eapply IH; [by apply wf_tail_rows|]. by eapply latlong2osgbgrid_dask_tail_rows.
Qed.

(** C8.  Take a frame on which the pipeline step
    [map_partitions(latlong2osgbgrid_dask)] succeeds when the frame is one
    partition.  Cut the same frame into [k = S (length sizes)] partitions,
    at any places.  The step succeeds on the [k] partitions as well, gives
    [k] partitions, and the rows of its result are, as a multiset, the
    rows of the result on the single partition. *)
Theorem map_partitions_partition_invariant sizes (part : Partition T) n out :
  wf_partition n part ->
  grid_pipeline [part] = Ok [out] ->
  exists outs,
    grid_pipeline (repartition sizes part) = Ok outs /\
    length outs = S (length sizes) /\
    compute_rows outs ≡ₚ compute_rows [out].
Proof.
  intros Hwf Hone.
  assert (Hout : latlong2osgbgrid_dask part "lat" "long" true = Ok out).
  { unfold grid_pipeline, map_partitions in Hone. simpl in Hone.
    destruct (latlong2osgbgrid_dask part "lat" "long" true) as [out'|]; [|done].
    simpl in Hone. by injection Hone as ->. }
  exists (repartition sizes out). split; [|split].
  - by eapply map_partitions_repartition.
  - apply length_repartition.
  - rewrite compute_rows_repartition. unfold compute_rows. simpl.
    by rewrite app_nil_r.
Qed.
End TransformFacts.

(** *** The kernel over the real numbers *)

Section RealFacts.
Local Open Scope R_scope.

Lemma Q2R_inject (z : Z) : Q2R (Qmake z 1) = IZR z.
Proof. unfold Q2R. simpl. lra. Qed.

Lemma Rpower_neg_half x : 0 < x -> Rpower x (Q2R (-0.5)) = / sqrt x.
Proof.
  intros Hx. replace (Q2R (-0.5)) with (- / 2) by (unfold Q2R; simpl; lra).
  rewrite Rpower_Ropp. by rewrite Rpower_sqrt.
Qed.

Lemma Rpower_neg_three_halves x : 0 < x -> Rpower x (Q2R (-1.5)) = / (x * sqrt x).
Proof.
  intros Hx. replace (Q2R (-1.5)) with (- (1 + / 2)) by (unfold Q2R; simpl; lra).
  rewrite Rpower_Ropp, Rpower_plus, Rpower_1 by done. by rewrite Rpower_sqrt.
Qed.

(** The squared eccentricity of the Airy 1830 ellipsoid lies strictly
    between 0 and 1. *)
Lemma airy_eccentricity :
  0 < (6377563.396 ^ 2 - 6356256.909 ^ 2) / 6377563.396 ^ 2 < 1.
Proof.
  assert (Ha : 6377563.396 = 6377563396 / 1000) by (unfold Q2R; simpl; lra).
  assert (Hb : 6356256.909 = 6356256909 / 1000) by (unfold Q2R; simpl; lra).
  rewrite Ha, Hb. lra.
Qed.

(** So the base of the two float powers of the kernel is positive at
    every latitude, the poles included. *)
Lemma radicand_pos (x : R) :
  0 < 1 - (6377563.396 ^ 2 - 6356256.909 ^ 2) / 6377563.396 ^ 2 * sin x ^ 2.
Proof.
  pose proof airy_eccentricity as [He0 He1].
  pose proof (sin2_cos2 x) as Hsc. unfold Rsqr in Hsc.
  set (e2 := _ / _) in *. clearbody e2.
  assert (0 <= sin x ^ 2 <= 1) by nra. nra.
Qed.

Ltac kernel_to_reals :=
  cbn [OSGB36 semiMajorAxis semiMinorAxis falseNorthing falseEasting scaleFactor
       originLatitude originLongitude
       R_ops flit fpi fadd fsub fmul fdiv fpown fpowf fsin fcos ftan];
  rewrite ?Q2R_inject.

Lemma latlong2osgbgrid_real deg (lat long : R) :
  latlong2osgbgrid lat long deg = spec_project OSGB36 deg lat long.
Proof.
  unfold latlong2osgbgrid, spec_project. kernel_to_reals.
  set (phi := if deg then lat * PI / 180 else lat).
  set (lam := if deg then long * PI / 180 else long).
  rewrite !Rpower_neg_half, !Rpower_neg_three_halves by apply radicand_pos.
  set (w := 1 - _ * sin phi ^ 2).
  set (a := 6377563.396). set (b := 6356256.909). set (F0 := 0.9996012717).
  f_equal; unfold Rdiv; ring.
Qed.

(** At the true origin the two differences vanish, and with them the
    meridional arc and every correction term. *)
Lemma spec_project_origin p :
  spec_project p false (originLatitude p) (originLongitude p) =
    (falseNorthing p, falseEasting p).
Proof.
  unfold spec_project.
  replace (originLatitude p - originLatitude p) with 0 by ring.
  replace (originLongitude p - originLongitude p) with 0 by ring.
  rewrite !Rmult_0_r, sin_0. f_equal; unfold Rdiv; ring.
Qed.

Lemma spec_project_degrees p lat long :
  spec_project p true lat long = spec_project p false (lat * PI / 180) (long * PI / 180).
Proof. reflexivity. Qed.

(** In real arithmetic, without rounding, the kernel sends the true
    origin of the projection, 49 degrees north and 2 degrees west given
    in degrees, to the false origin exactly: northing [N0 = -100000] and
    easting [E0 = 400000].  What the floats of the notebook give there
    depends on how [lat * cp.pi/180], computed in the precision of the
    column, rounds against the scalar [phi0]; this is outside the
    model. *)
Lemma latlong2osgbgrid_true_origin :
  let '(northing, easting) := latlong2osgbgrid 49 (-2) true in
  northing = -100000 /\ easting = 400000 /\
  Rabs (northing - -100000) <= 0.000001 * Rabs (-100000) /\
  Rabs (easting - 400000) <= 0.000001 * Rabs 400000.
Proof.
  rewrite latlong2osgbgrid_real, spec_project_degrees.
  change (49 * PI / 180) with (originLatitude OSGB36).
  change (-2 * PI / 180) with (originLongitude OSGB36).
  rewrite spec_project_origin. cbn [OSGB36 falseNorthing falseEasting].
  split; [done|]. split; [done|].
  replace (-100000 - -100000) with 0 by ring.
  replace (400000 - 400000) with 0 by ring.
  rewrite Rabs_R0. split; apply Rmult_le_pos; try apply Rabs_pos;
    unfold Q2R; simpl; lra.
Qed.

(** C4.  For every point and both values of the degrees flag, the kernel
    read in the real numbers is the series of the specification at the
    OSGB36 parameters: the conversion to radians, [e2], [n], [nu], [rho],
    [eta2], the meridional arc [M], the terms [I] to [VI], and the two
    polynomials in [longdiff]. *)
Theorem latlong2osgbgrid_refines_spec deg (lat long : R) :
  latlong2osgbgrid lat long deg = spec_project OSGB36 deg lat long.
Proof. apply latlong2osgbgrid_real. Qed.

(** Against C5 as stated: the kernel takes no parameter set, so it cannot
    compute the projection of one that is not OSGB36.  At the true origin
    it gives the easting 400000, where the projection with the false
    easting 0 gives 0. *)
Lemma latlong2osgbgrid_fixed_parameters :
  ~ (forall (p : ProjectionParameters) deg (lat long : R),
       latlong2osgbgrid lat long deg = spec_project p deg lat long).
Proof.
  intros Hall. specialize (Hall shifted_origin true 49 (-2)).
  rewrite latlong2osgbgrid_real in Hall.
  rewrite !spec_project_degrees in Hall.
  change (49 * PI / 180) with (originLatitude OSGB36) in Hall at 1.
  change (-2 * PI / 180) with (originLongitude OSGB36) in Hall at 1.
  change (49 * PI / 180) with (originLatitude shifted_origin) in Hall.
  change (-2 * PI / 180) with (originLongitude shifted_origin) in Hall.
  rewrite !spec_project_origin in Hall.
  cbn [OSGB36 shifted_origin falseNorthing falseEasting] in Hall.
  injection Hall. lra.
Qed.

(** On the columns alone: with float coordinate columns the transform
    returns the projection at the OSGB36 parameters, position by
    position. *)
Lemma latlong2osgbgrid_dask_is_OSGB36 (part : Partition R) lat_col long_col deg
    lats longs :
  getitem part lat_col = Ok (FloatCol lats) ->
  getitem part long_col = Ok (FloatCol longs) ->
  length lats = length longs ->
  exists out,
    latlong2osgbgrid_dask part lat_col long_col deg = Ok out /\
    getitem out "northing" =
      Ok (FloatCol (zip_with (fun la lo => (spec_project OSGB36 deg la lo).1) lats longs)) /\
    getitem out "easting" =
      Ok (FloatCol (zip_with (fun la lo => (spec_project OSGB36 deg la lo).2) lats longs)).
Proof.
  intros Hlat Hlong Hlen.
  destruct (latlong2osgbgrid_dask_values _ _ _ deg _ _ Hlat Hlong Hlen)
    as (out & Hrun & Hn & He).
  exists out. rewrite Hn, He. split; [exact Hrun|].
  split; do 2 f_equal; apply zip_with_ext; try done;
    intros la lo; by rewrite latlong2osgbgrid_real.
Qed.
End RealFacts.

(** *** The clusterer *)

Section ClustererFacts.
Variable neighbors : nat -> list nat.
Variable minPts : nat.
Variable n : nat.
Hypothesis neighbors_range : forall q r, r ∈ neighbors q -> r < n.
Hypothesis neighbors_NoDup : forall q, NoDup (neighbors q).
Hypothesis neighbors_sym : forall q r, r ∈ neighbors q -> q ∈ neighbors r.
Hypothesis neighbors_refl : forall q, q < n -> q ∈ neighbors q.

Implicit Types (labels : list Label) (c p q r : nat) (members queue : list nat).

Lemma length_assign_all c members labels :
  length (assign_all c members labels) = length labels.
Proof.
  induction members as [|m members IH]; simpl; [done|].
  by rewrite length_insert.
Qed.

Lemma lookup_assign_all_notin c members labels i :
  i ∉ members -> assign_all c members labels !! i = labels !! i.
Proof.
  induction members as [|m members IH]; simpl; [done|].
  intros [Hne Hnotin]%not_elem_of_cons.
  rewrite list_lookup_insert_ne by done. by apply IH.
Qed.

Lemma lookup_assign_all_in c members labels i :
  i ∈ members -> i < length labels ->
  assign_all c members labels !! i = Some (Assigned c).
Proof.
  induction members as [|m members IH]; simpl.
  - by intros ?%elem_of_nil.
  - intros Hin Hlt. destruct (decide (m = i)) as [->|Hne].
    + apply list_lookup_insert_eq. by rewrite length_assign_all.
    + rewrite list_lookup_insert_ne by done. apply IH; [|done].
      apply elem_of_cons in Hin as [->|Hin]; done.
Qed.

Lemma lookup_assign_all c members labels i l :
  assign_all c members labels !! i = Some l ->
  l = Assigned c \/ labels !! i = Some l.
Proof.
  intros Hl. destruct (decide (i ∈ members)) as [Hin|Hnotin].
  - left. apply lookup_lt_Some in Hl as Hlt. rewrite length_assign_all in Hlt.
    rewrite lookup_assign_all_in in Hl by done. congruence.
  - right. by rewrite lookup_assign_all_notin in Hl.
Qed.

Lemma pending_le labels : pending labels <= length labels.
Proof. apply length_filter. Qed.

Lemma pending_insert labels i l c :
  labels !! i = Some l -> absorbable l = true ->
  S (pending (<[i:=Assigned c]> labels)) = pending labels.
Proof.
  unfold pending. revert i. induction labels as [|x labels IH]; intros [|i]; simpl; try done.
  - intros [= ->] Ha. rewrite filter_cons_False by done.
    by rewrite filter_cons_True by done.
  - intros Hl Ha. rewrite !filter_cons.
    destruct (decide (absorbable x = true)); simpl; by rewrite <- (IH i).
Qed.

Lemma pending_assign_all c members labels :
  NoDup members ->
  (forall i, i ∈ members -> absorbable_at labels i = true) ->
  pending (assign_all c members labels) + length members = pending labels.
Proof.
  induction members as [|m members IH]; simpl; intros Hnd Hall; [lia|].
  apply NoDup_cons in Hnd as [Hnotin Hnd].
  assert (Hm : absorbable_at labels m = true) by (apply Hall; left).
  unfold absorbable_at in Hm. destruct (labels !! m) as [l|] eqn:Hl; [|done].
  rewrite <- (IH Hnd) by (intros; apply Hall; by right).
  pose proof (pending_insert (assign_all c members labels) m l c) as Hp.
  rewrite lookup_assign_all_notin in Hp by done. specialize (Hp Hl Hm). lia.
Qed.

Lemma fresh_absorbable labels q i :
  i ∈ filter (fun r => absorbable_at labels r = true) (neighbors q) ->
  absorbable_at labels i = true.
Proof. by intros [? _]%list_elem_of_filter. Qed.

(** The expansion ends: with more fuel than points in the worklist plus
    points outside the clusters, it returns. *)
Lemma expand_is_Some fuel c queue labels :
  length queue + pending labels < fuel ->
  is_Some (expand neighbors minPts fuel c queue labels).
Proof.
  revert queue labels. induction fuel as [|fuel IH]; intros queue labels Hlt; [lia|].
  destruct queue as [|q queue]; simpl; [eauto|].
  destruct (is_core neighbors minPts q).
  - apply IH. rewrite length_app.
    pose proof (pending_assign_all c
      (filter (fun r => absorbable_at labels r = true) (neighbors q)) labels) as Hp.
    simpl in Hlt. rewrite <- Hp in Hlt; [lia| |].
    + apply NoDup_filter, neighbors_NoDup.
    + apply fresh_absorbable.
  - apply IH. simpl in Hlt. lia.
Qed.

Lemma grows_refl c labels : grows c labels labels.
Proof. split; [done|]. by left. Qed.

Lemma grows_trans c labels1 labels2 labels3 :
  grows c labels1 labels2 -> grows c labels2 labels3 -> grows c labels1 labels3.
Proof.
  intros [Hlen1 H1] [Hlen2 H2]. split; [congruence|].
  intros i. destruct (H2 i) as [Heq|[Ha Heq]].
  - rewrite Heq. apply H1.
  - destruct (H1 i) as [Heq1|[Ha1 Heq1]].
    + right. split; [|done]. unfold absorbable_at in *. by rewrite <- Heq1.
    + unfold absorbable_at in Ha. by rewrite Heq1 in Ha.
Qed.

Lemma grows_assign_all c members labels :
  (forall i, i ∈ members -> absorbable_at labels i = true) ->
  grows c labels (assign_all c members labels).
Proof.
  intros Hall. split; [apply length_assign_all|].
  intros i. destruct (decide (i ∈ members)) as [Hin|Hnotin].
  - right. split; [by apply Hall|]. apply lookup_assign_all_in; [done|].
    specialize (Hall i Hin). unfold absorbable_at in Hall.
    destruct (labels !! i) eqn:Hi; [|done]. by eapply lookup_lt_Some.
  - left. by apply lookup_assign_all_notin.
Qed.

Lemma expand_grows fuel c queue labels labels' :
  expand neighbors minPts fuel c queue labels = Some labels' ->
  grows c labels labels'.
Proof.
  revert queue labels. induction fuel as [|fuel IH]; intros queue labels; [done|].
  destruct queue as [|q queue]; simpl.
  - intros [= <-]. apply grows_refl.
  - destruct (is_core neighbors minPts q).
    + intros Hexp. eapply grows_trans; [|by eapply IH].
      apply grows_assign_all, fresh_absorbable.
    + apply IH.
Qed.

Lemma assigned_grows c labels labels' r d :
  grows c labels labels' -> labels !! r = Some (Assigned d) ->
  labels' !! r = Some (Assigned d).
Proof.
  intros [_ Hg] Hr. destruct (Hg r) as [Heq|[Ha _]]; [congruence|].
  unfold absorbable_at in Ha. by rewrite Hr in Ha.
Qed.

Lemma assigned_assign_all c members labels r d :
  labels !! r = Some (Assigned d) ->
  exists d', assign_all c members labels !! r = Some (Assigned d').
Proof.
  intros Hr. destruct (decide (r ∈ members)) as [Hin|Hnotin].
  - exists c. apply lookup_assign_all_in; [done|]. by eapply lookup_lt_Some.
  - exists d. by rewrite lookup_assign_all_notin.
Qed.

Lemma clustered_upto_start : clustered_upto neighbors minPts n 0 (replicate n Unvisited, 0).
Proof.
  split; [apply length_replicate|]. simpl.
  split; [by intros i c [? _]%lookup_replicate|].
  split; [intros; lia|].
  split; [by intros i [? _]%lookup_replicate|].
  split; [by intros i c [? _]%lookup_replicate|].
  split; [by intros i c _ [? _]%lookup_replicate|].
  exists []. split; [done|]. split; intros *; by rewrite lookup_nil.
Qed.

Lemma closed_neighbours labels i c r :
  closed_but neighbors minPts [] labels ->
  is_core neighbors minPts i = true -> labels !! i = Some (Assigned c) ->
  r ∈ neighbors i -> exists d, labels !! r = Some (Assigned d).
Proof.
  intros Hclosed Hcore Hi Hr.
  destruct (Hclosed i c Hcore Hi) as [?%elem_of_nil|Hnb]; [done|]. by apply Hnb.
Qed.

(** A neighbour outside the clusters is absorbed; the others are in a
    cluster already. *)
Lemma neighbour_assigned c q labels r :
  length labels = n -> r ∈ neighbors q ->
  exists d,
    assign_all c (filter (fun r => absorbable_at labels r = true) (neighbors q)) labels !! r =
      Some (Assigned d).
Proof.
  intros Hlen Hr.
  assert (Hrn : r < length labels) by (apply neighbors_range in Hr; lia).
  set (fresh := filter _ _).
  destruct (decide (r ∈ fresh)) as [Hin|Hnotin].
  - exists c. by apply lookup_assign_all_in.
  - rewrite lookup_assign_all_notin by done.
    destruct (lookup_lt_is_Some_2 labels r Hrn) as [l Hl].
    destruct l as [| |d]; [| |by exists d]; exfalso; apply Hnotin;
      apply list_elem_of_filter; (split; [|done]); unfold absorbable_at; by rewrite Hl.
Qed.

(** When the expansion ends, every core point of a cluster has been
    taken from the worklist: its neighbours are in clusters. *)
Lemma expand_closed fuel c queue labels labels' :
  length labels = n ->
  expand neighbors minPts fuel c queue labels = Some labels' ->
  closed_but neighbors minPts queue labels -> reached neighbors minPts labels ->
  closed_but neighbors minPts [] labels' /\ reached neighbors minPts labels'.
Proof.
  revert queue labels. induction fuel as [|fuel IH]; intros queue labels Hlen; [done|].
  destruct queue as [|q queue]; simpl.
  - by intros [= <-].
  - destruct (is_core neighbors minPts q) eqn:Hq.
    + set (fresh := filter (fun r => absorbable_at labels r = true) (neighbors q)).
      intros Hexp Hclosed Hreached.
      apply (IH (queue ++ fresh) (assign_all c fresh labels));
        [by rewrite length_assign_all | done | |].
      * intros i d Hi Hl.
        destruct (decide (i ∈ fresh)) as [Hin|Hnotin];
          [left; apply elem_of_app; by right|].
        rewrite lookup_assign_all_notin in Hl by done.
        destruct (Hclosed i d Hi Hl) as [Hin|Hnb].
        -- apply elem_of_cons in Hin as [->|Hin]; [|left; apply elem_of_app; by left].
           right. intros r Hr. by apply neighbour_assigned.
        -- right. intros r Hr. destruct (Hnb r Hr) as [d' Hd'].
           by apply (assigned_assign_all c fresh labels r d').
      * intros i d Hl. destruct (decide (i ∈ fresh)) as [Hin|Hnotin].
        -- exists q. split; [done|]. by apply list_elem_of_filter in Hin as [_ ?].
        -- rewrite lookup_assign_all_notin in Hl by done. by eapply Hreached.
    + intros Hexp Hclosed Hreached. apply (IH queue labels Hlen Hexp); [|done].
      intros i d Hi Hl. destruct (Hclosed i d Hi Hl) as [Hin|Hnb]; [|by right].
      apply elem_of_cons in Hin as [->|Hin]; [congruence | by left].
Qed.

(** The point [p] is a core point found unvisited: it starts cluster
    [next]. *)
Lemma visit_core_upto fuel p labels next labels' :
  clustered_upto neighbors minPts n p (labels, next) ->
  p < n -> labels !! p = Some Unvisited -> is_core neighbors minPts p = true ->
  expand neighbors minPts fuel next (neighbors p)
    (assign_all next (neighbors p) labels) = Some labels' ->
  clustered_upto neighbors minPts n (S p) (labels', S next).
Proof.
  intros (Hlen & Hlt & Hvis & Hnoise & Hreached & Hclosed & seeds & Hslen & Hsord & Hseed)
    Hp Hlp Hcore Hexp.
  simpl in *.
  set (labels1 := assign_all next (neighbors p) labels) in *.
  assert (Hlen1 : length labels1 = n) by (unfold labels1; by rewrite length_assign_all).
  assert (Hp1 : labels1 !! p = Some (Assigned next)).
  { apply lookup_assign_all_in; [by apply neighbors_refl | lia]. }
  assert (Hfar : forall i d, is_core neighbors minPts i = true ->
                   labels !! i = Some (Assigned d) -> i ∉ neighbors p).
  { intros i d Hi Hl Hin.
    destruct (closed_neighbours labels i d p Hclosed Hi Hl) as [d' Hd'];
      [by apply neighbors_sym | congruence]. }
  destruct (expand_closed _ _ _ _ _ Hlen1 Hexp) as [Hclosed' Hreached'].
  { intros i d Hi Hl. destruct (decide (i ∈ neighbors p)) as [Hin|Hnotin]; [by left|].
    right. intros r Hr. unfold labels1 in Hl. rewrite lookup_assign_all_notin in Hl by done.
    destruct (closed_neighbours labels i d r Hclosed Hi Hl Hr) as [d' Hd'].
    by apply (assigned_assign_all next (neighbors p) labels r d'). }
  { intros i d Hl. destruct (decide (i ∈ neighbors p)) as [Hin|Hnotin]; [by exists p|].
    unfold labels1 in Hl. rewrite lookup_assign_all_notin in Hl by done.
    by eapply Hreached. }
  pose proof (expand_grows _ _ _ _ _ Hexp) as Hgrows.
  destruct Hgrows as [Hlen' Hg].
  assert (Hkeep : forall i d, labels1 !! i = Some (Assigned d) ->
                    labels' !! i = Some (Assigned d)).
  { intros i d. apply (assigned_grows next labels1). by split. }
  assert (Hback : forall i d, labels' !! i = Some (Assigned d) -> d <> next ->
                    labels !! i = Some (Assigned d)).
  { intros i d Hi Hd. destruct (Hg i) as [Heq|[_ Heq]]; [|congruence].
    rewrite Heq in Hi. apply lookup_assign_all in Hi as [[= ->]|Hi]; done. }
  split; [simpl; congruence|]. split; [|split; [|split; [|split; [done|split; [done|]]]]].
  - simpl. intros i c Hi. destruct (decide (c = next)) as [->|Hne]; [lia|].
    apply Hback in Hi; [|done]. apply Hlt in Hi. lia.
  - simpl. intros i Hi Hun. destruct (Hg i) as [Heq|[_ Heq]]; [|congruence].
    rewrite Heq in Hun.
    destruct (decide (i = p)) as [->|Hne]; [congruence|].
    apply lookup_assign_all in Hun as [?|Hun]; [done|].
    apply (Hvis i); [lia | done].
  - simpl. intros i Hi. destruct (Hg i) as [Heq|[_ Heq]]; [|congruence].
    rewrite Heq in Hi. apply lookup_assign_all in Hi as [?|Hi]; [done|]. by apply Hnoise.
  - exists (seeds ++ [p]). simpl. split; [rewrite length_app; simpl; lia|]. split.
    + intros c c' s s' Hs Hs' Hcc'.
      apply lookup_lt_Some in Hs' as Hc'. rewrite length_app in Hc'. simpl in Hc'.
      assert (Hc : c < length seeds) by lia.
      rewrite lookup_app_l in Hs by done.
      destruct (decide (c' < length seeds)) as [Hin|Hlast].
      * rewrite lookup_app_l in Hs' by done. by eapply Hsord.
      * rewrite lookup_app_r in Hs' by lia.
        replace (c' - length seeds) with 0 in Hs' by lia. injection Hs' as <-.
        by destruct (Hseed c s Hs).
    + intros c s Hs.
      destruct (decide (c < length seeds)) as [Hin|Hlast].
      * rewrite lookup_app_l in Hs by done.
        destruct (Hseed c s Hs) as (Hsp & Hscore & Hsl & Hfirst).
        split; [lia|]. split; [done|]. split.
        -- apply Hkeep. unfold labels1. rewrite lookup_assign_all_notin by eauto. done.
        -- intros i Hi Hl. apply Hfirst; [done|]. apply Hback; [done | lia].
      * apply lookup_lt_Some in Hs as Hc. rewrite length_app in Hc. simpl in Hc.
        rewrite lookup_app_r in Hs by lia.
        replace (c - length seeds) with 0 in Hs by lia. injection Hs as <-.
        assert (c = next) as -> by lia.
        split; [lia|]. split; [done|]. split; [by apply Hkeep|].
        intros i Hi Hl. destruct (decide (p <= i)) as [|Hlt']; [done|]. exfalso.
        assert (Hin : i < length labels) by lia.
        destruct (lookup_lt_is_Some_2 labels i Hin) as [l Hl0].
        destruct l as [| |d].
        -- apply (Hvis i); [lia | done].
        -- apply Hnoise in Hl0. congruence.
        -- assert (Hl1 : labels1 !! i = Some (Assigned d)).
           { unfold labels1. rewrite lookup_assign_all_notin by eauto. done. }
           apply Hkeep in Hl1. apply Hlt in Hl0. rewrite Hl in Hl1.
           injection Hl1 as <-. lia.
Qed.

(** The point [p] is found unvisited and is not a core point: it becomes
    noise. *)
Lemma visit_noise_upto p labels next :
  clustered_upto neighbors minPts n p (labels, next) ->
  labels !! p = Some Unvisited -> is_core neighbors minPts p = false ->
  clustered_upto neighbors minPts n (S p) (<[p:=Noise]> labels, next).
Proof.
  intros (Hlen & Hlt & Hvis & Hnoise & Hreached & Hclosed & seeds & Hslen & Hsord & Hseed)
    Hlp Hcore.
  simpl in *.
  assert (Hp : p < length labels) by (by eapply lookup_lt_Some).
  assert (Hother : forall i d, labels !! i = Some (Assigned d) ->
                     <[p:=Noise]> labels !! i = Some (Assigned d)).
  { intros i d Hi. rewrite list_lookup_insert_ne; [done|]. congruence. }
  assert (Hback : forall i d, <[p:=Noise]> labels !! i = Some (Assigned d) ->
                    labels !! i = Some (Assigned d)).
  { intros i d Hi. destruct (decide (p = i)) as [->|Hne].
    - by rewrite list_lookup_insert_eq in Hi.
    - by rewrite list_lookup_insert_ne in Hi. }
  split; [simpl; by rewrite length_insert|].
  split; [|split; [|split; [|split; [|split]]]]; simpl.
  - intros i c Hi. by eapply Hlt, Hback.
  - intros i Hi. destruct (decide (p = i)) as [->|Hne].
    + by rewrite list_lookup_insert_eq.
    + rewrite list_lookup_insert_ne by done. apply Hvis. lia.
  - intros i Hi. destruct (decide (p = i)) as [->|Hne]; [done|].
    rewrite list_lookup_insert_ne in Hi by done. by apply Hnoise.
  - intros i c Hi. by eapply Hreached, Hback.
  - intros i c Hi Hl. right. intros r Hr.
    destruct (closed_neighbours labels i c r Hclosed Hi (Hback _ _ Hl) Hr) as [d Hd].
    exists d. by apply Hother.
  - exists seeds. split; [done|]. split; [done|].
    intros c s Hs. destruct (Hseed c s Hs) as (Hsp & Hscore & Hsl & Hfirst).
    split; [lia|]. split; [done|]. split; [by apply Hother|].
    intros i Hi Hl. apply Hfirst; [done|]. by apply Hback.
Qed.

(** The point [p] was reached before: nothing changes. *)
Lemma visit_skip_upto p st :
  clustered_upto neighbors minPts n p st ->
  st.1 !! p <> Some Unvisited ->
  clustered_upto neighbors minPts n (S p) st.
Proof.
  intros (Hlen & Hlt & Hvis & Hnoise & Hreached & Hclosed & seeds & Hslen & Hsord & Hseed) Hlp.
  split; [done|]. split; [done|]. split; [|split; [done|split; [done|split; [done|]]]].
  - intros i Hi. destruct (decide (i = p)) as [->|Hne]; [done|]. apply Hvis. lia.
  - exists seeds. split; [done|]. split; [done|].
    intros c s Hs. destruct (Hseed c s Hs) as (Hsp & Hrest). split; [lia|done].
Qed.

Lemma visit_upto p st :
  clustered_upto neighbors minPts n p st -> p < n ->
  exists st', visit neighbors minPts st p = Some st' /\
              clustered_upto neighbors minPts n (S p) st'.
Proof.
  destruct st as [labels next]. intros Hinv Hp. unfold visit.
  destruct (labels !! p) as [l|] eqn:Hlp.
  2:{ apply lookup_ge_None in Hlp. destruct Hinv as [Hlen _]. simpl in Hlen. lia. }
  destruct l as [| |c].
  - destruct (is_core neighbors minPts p) eqn:Hcore.
    + set (labels1 := assign_all next (neighbors p) labels).
      destruct (expand_is_Some (S (length (neighbors p) + length labels)) next
                  (neighbors p) labels1) as [labels' Hexp].
      { pose proof (pending_le labels1) as Hle. unfold labels1 in Hle.
        rewrite length_assign_all in Hle. fold labels1 in Hle. lia. }
      rewrite Hexp. simpl. eexists; split; [done|].
      by eapply visit_core_upto.
    + eexists; split; [done|]. by apply visit_noise_upto.
  - eexists; split; [done|]. apply visit_skip_upto; [done|]. simpl. congruence.
  - eexists; split; [done|]. apply visit_skip_upto; [done|]. simpl. congruence.
Qed.

Lemma visit_all_upto p m st :
  clustered_upto neighbors minPts n p st -> p + m <= n ->
  exists st', visit_all neighbors minPts st (seq p m) = Some st' /\
              clustered_upto neighbors minPts n (p + m) st'.
Proof.
  revert p st. induction m as [|m IH]; intros p st Hinv Hle; simpl.
  - exists st. split; [done|]. by rewrite Nat.add_0_r.
  - destruct (visit_upto p st Hinv) as (st1 & Hvisit & Hinv1); [lia|].
    rewrite Hvisit. simpl.
    destruct (IH (S p) st1 Hinv1) as (st' & Hall & Hinv'); [lia|].
    exists st'. split; [done|]. by replace (p + S m) with (S p + m) by lia.
Qed.

(** The clusterer returns, in a state where every point has been
    taken. *)
Lemma dbscan_upto :
  exists st, dbscan neighbors minPts n = Some st /\ clustered_upto neighbors minPts n n st.
Proof.
  destruct (visit_all_upto 0 n (replicate n Unvisited, 0)) as (st & Hrun & Hinv);
    [apply clustered_upto_start | lia |].
  by exists st.
Qed.

(** Without core points every point ends as noise. *)
Lemma visit_all_no_core p m :
  (forall q, is_core neighbors minPts q = false) ->
  visit_all neighbors minPts (replicate p Noise ++ replicate m Unvisited, 0) (seq p m) =
    Some (replicate (p + m) Noise, 0).
Proof.
  intros Hnocore. revert p. induction m as [|m IH]; intros p; simpl.
  - by rewrite app_nil_r, Nat.add_0_r.
  - rewrite lookup_app_r by (rewrite length_replicate; lia).
    rewrite length_replicate, Nat.sub_diag. simpl. rewrite Hnocore. simpl.
    replace (<[p:=Noise]> (replicate p Noise ++ Unvisited :: replicate m Unvisited))
      with (replicate (S p) Noise ++ replicate m Unvisited).
    + rewrite IH. by replace (S p + m) with (p + S m) by lia.
    + rewrite insert_app_r_alt by (rewrite length_replicate; lia).
      rewrite length_replicate, Nat.sub_diag. simpl.
      by rewrite app_comm_cons, replicate_cons_app, <- app_assoc.
Qed.

Lemma dbscan_no_core :
  (forall q, is_core neighbors minPts q = false) ->
  dbscan neighbors minPts n = Some (replicate n Noise, 0).
Proof.
  intros Hnocore. unfold dbscan. exact (visit_all_no_core 0 n Hnocore).
Qed.
End ClustererFacts.

(** *** The spatial index *)

Lemma Qle_bool_proper_l (x y z : Q) : (x == y)%Q -> Qle_bool x z = Qle_bool y z.
Proof.
  intros Hxy. apply eq_true_iff_eq. rewrite !Qle_bool_iff. by rewrite Hxy.
Qed.

Lemma dist2_sym p q : (dist2 p q == dist2 q p)%Q.
Proof. unfold dist2. ring. Qed.

Lemma dist2_self p : (dist2 p p == 0)%Q.
Proof. unfold dist2. ring. Qed.

Lemma within_eps_sym eps p q : within_eps eps p q = within_eps eps q p.
Proof. unfold within_eps. f_equal. apply Qle_bool_proper_l, dist2_sym. Qed.

Lemma within_eps_refl eps p : (0 <= eps)%Q -> within_eps eps p p = true.
Proof.
  intros Heps. unfold within_eps. apply andb_true_intro. split.
  - by apply Qle_bool_iff.
  - rewrite (Qle_bool_proper_l _ 0) by apply dist2_self.
    apply Qle_bool_iff. by apply Qmult_le_0_compat.
Qed.

(** Farther than [eps] is outside the range query. *)
Lemma within_eps_far eps p q : (eps * eps < dist2 p q)%Q -> within_eps eps p q = false.
Proof.
  intros Hfar. unfold within_eps. apply andb_false_intro2.
  apply not_true_is_false. rewrite Qle_bool_iff. by apply Qlt_not_le.
Qed.

Lemma elem_of_rangeQuery index p eps j :
  j ∈ rangeQuery index p eps <->
  exists q, index !! j = Some q /\ within_eps eps p q = true.
Proof.
  unfold rangeQuery, within_eps_at. rewrite list_elem_of_filter, elem_of_seq. split.
  - intros [Hw _]. destruct (index !! j) as [q|]; [eauto | done].
  - intros (q & Hq & Hw). rewrite Hq. split; [done|].
    apply lookup_lt_Some in Hq. lia.
Qed.

Lemma elem_of_neighbors_of index eps q r :
  r ∈ neighbors_of index eps q <->
  exists pq pr, index !! q = Some pq /\ index !! r = Some pr /\
                within_eps eps pq pr = true.
Proof.
  unfold neighbors_of. destruct (index !! q) as [pq|].
  - rewrite elem_of_rangeQuery. split.
    + intros (pr & Hr & Hw). by exists pq, pr.
    + intros (pq' & pr & [= <-] & Hr & Hw). by exists pr.
  - split; [by intros ?%elem_of_nil|]. by intros (? & ? & ? & _).
Qed.

Lemma neighbors_of_range index eps q r :
  r ∈ neighbors_of index eps q -> r < length index.
Proof.
  rewrite elem_of_neighbors_of. intros (_ & pr & _ & Hr & _).
  by eapply lookup_lt_Some.
Qed.

Lemma neighbors_of_NoDup index eps q : NoDup (neighbors_of index eps q).
Proof.
  unfold neighbors_of. destruct (index !! q); [|constructor].
  apply NoDup_filter, NoDup_seq.
Qed.

Lemma neighbors_of_sym index eps q r :
  r ∈ neighbors_of index eps q -> q ∈ neighbors_of index eps r.
Proof.
  rewrite !elem_of_neighbors_of. intros (pq & pr & Hq & Hr & Hw).
  exists pr, pq. by rewrite within_eps_sym.
Qed.

Lemma neighbors_of_refl index eps q :
  (0 <= eps)%Q -> q < length index -> q ∈ neighbors_of index eps q.
Proof.
  intros Heps Hq. rewrite elem_of_neighbors_of.
  destruct (lookup_lt_is_Some_2 index q Hq) as [pq Hpq].
  exists pq, pq. by rewrite within_eps_refl.
Qed.

Lemma NoDup_all_equal (l : list nat) (x : nat) :
  NoDup l -> (forall y, y ∈ l -> y = x) -> length l <= 1.
Proof.
  intros Hnd Hall. destruct l as [|a [|b l]]; simpl; [lia..|].
  apply NoDup_cons in Hnd as [Hnotin _]. exfalso. apply Hnotin.
  rewrite (Hall a), (Hall b); [left | right; left | left].
Qed.

Lemma cluster_valid points eps minPts :
  (0 <= eps)%Q -> (1 <= minPts)%Z ->
  cluster points eps minPts =
    match cluster_states points eps minPts with
    | Some (labels, _) => inr (clusterId_of <$> labels)
    | None => inl StepBoundReached
    end.
Proof.
  intros Heps HminPts. unfold cluster.
  apply Qle_bool_iff in Heps. rewrite Heps. simpl.
  by destruct (Z.ltb_spec minPts 1); [lia|].
Qed.

(** With [eps] not negative the clusterer returns, every point taken. *)
Lemma cluster_states_upto points eps minPts :
  (0 <= eps)%Q ->
  exists st,
    cluster_states points eps minPts = Some st /\
    clustered_upto (neighbors_of points eps) (Z.to_nat minPts)
      (length points) (length points) st.
Proof.
  intros Heps. apply dbscan_upto.
  - apply neighbors_of_range.
  - apply neighbors_of_NoDup.
  - apply neighbors_of_sym.
  - intros q Hq. by apply neighbors_of_refl.
Qed.

Lemma clusterId_of_noise l : clusterId_of l = (-1)%Z -> l = Unvisited \/ l = Noise.
Proof. destruct l as [| |c]; simpl; [auto..|lia]. Qed.

(** C6.  For every point set and every valid configuration ([eps] not
    negative, [minPts] at least 1) the clusterer returns one cluster id
    per point, -1 or an id in [0, k), where [k] is the number of
    clusters.  The id is -1 exactly for the points that are in no
    cluster: those that no core point has in its neighbourhood.  The ids
    are dense and in discovery order: every [c < k] is the id of a core
    point, and the first core points of the clusters 0, 1, ..., k-1,
    the points at which the scan in input order discovers them, follow
    one another in input order. *)
Theorem cluster_ids_dense points eps minPts :
  (0 <= eps)%Q -> (1 <= minPts)%Z ->
  exists ids k seeds,
    cluster points eps minPts = inr ids /\
    length ids = length points /\
    (forall i id, ids !! i = Some id -> id = (-1)%Z \/ (0 <= id < Z.of_nat k)%Z) /\
    (forall i, ids !! i = Some (-1)%Z <->
       i < length points /\
       forall q, is_core (neighbors_of points eps) (Z.to_nat minPts) q = true ->
                 i ∉ neighbors_of points eps q) /\
    length seeds = k /\
    (forall c c' s s', seeds !! c = Some s -> seeds !! c' = Some s' -> c < c' -> s < s') /\
    (forall c s, seeds !! c = Some s ->
       is_core (neighbors_of points eps) (Z.to_nat minPts) s = true /\
       ids !! s = Some (Z.of_nat c) /\
       forall i, is_core (neighbors_of points eps) (Z.to_nat minPts) i = true ->
                 ids !! i = Some (Z.of_nat c) -> s <= i).
Proof.
  intros Heps HminPts.
  destruct (cluster_states_upto points eps minPts Heps)
    as ([states k] & Hrun & Hlen & Hlt & Hvis & Hnoise & Hreached & Hclosed &
        seeds & Hslen & Hsord & Hseed).
  simpl in *. exists (clusterId_of <$> states), k, seeds.
  assert (Hstate : forall i l, states !! i = Some l -> l <> Unvisited).
  { intros i l Hl ->. apply (Hvis i); [|done]. apply lookup_lt_Some in Hl. lia. }
  split. { rewrite cluster_valid by done. by rewrite Hrun. }
  split; [by rewrite length_fmap|].
  split; [|split; [|split; [done|split; [done|]]]].
  - intros i id. rewrite list_lookup_fmap.
    destruct (states !! i) as [l|] eqn:Hl; [|done]. intros [= <-].
    destruct l as [| |c]; simpl; [by left..|]. right. apply Hlt in Hl. lia.
  - intros i. rewrite list_lookup_fmap. split.
    + destruct (states !! i) as [l|] eqn:Hl; [|done]. intros [= Hid].
      split; [apply lookup_lt_Some in Hl; lia|]. intros q Hq Hin.
      apply clusterId_of_noise in Hid as [->| ->]; [by eapply Hstate|].
      assert (Hqn : q < length states).
      { apply neighbors_of_sym, neighbors_of_range in Hin. lia. }
      destruct (lookup_lt_is_Some_2 states q Hqn) as [lq Hlq].
      destruct lq as [| |d].
      * by eapply Hstate.
      * apply Hnoise in Hlq. congruence.
      * destruct (Hclosed q d Hq Hlq) as [?%elem_of_nil|Hnb]; [done|].
        destruct (Hnb i Hin) as [d' Hd']. congruence.
    + intros [Hi Hfar].
      assert (Hin : i < length states) by lia.
      destruct (lookup_lt_is_Some_2 states i Hin) as [l Hl]. rewrite Hl. simpl.
      destruct l as [| |c]; [done..|]. exfalso.
      destruct (Hreached i c Hl) as (q & Hq & Hiq). by apply (Hfar q).
  - intros c s Hs. destruct (Hseed c s Hs) as (_ & Hcore & Hl & Hfirst).
    split; [done|]. split; [by rewrite list_lookup_fmap, Hl|].
    intros i Hi. rewrite list_lookup_fmap.
    destruct (states !! i) as [l|] eqn:Hli; [|done]. intros [= Hid].
    apply Hfirst; [done|]. rewrite Hli. f_equal.
    destruct l as [| |d]; simpl in Hid; [lia..|]. f_equal. lia.
Qed.

(** C7.  When [eps] is not negative, [minPts] is greater than 1 and any
    two distinct points of the set are farther apart than [eps] (their
    squared distance exceeds [eps * eps]), the clusterer labels every
    point -1. *)
Theorem cluster_all_noise points eps minPts :
  (0 <= eps)%Q -> (1 < minPts)%Z ->
  (forall i j p q, i <> j -> points !! i = Some p -> points !! j = Some q ->
     (eps * eps < dist2 p q)%Q) ->
  cluster points eps minPts = inr (replicate (length points) (-1)%Z).
Proof.
  intros Heps HminPts Hfar.
  rewrite cluster_valid by (done || lia). unfold cluster_states.
  rewrite dbscan_no_core.
  - by rewrite fmap_replicate.
  - intros q. unfold is_core. apply Nat.leb_gt.
    assert (length (neighbors_of points eps q) <= 1); [|lia].
    apply (NoDup_all_equal _ q); [apply neighbors_of_NoDup|].
    intros r Hr. apply elem_of_neighbors_of in Hr as (pq & pr & Hq & Hpr & Hw).
    destruct (decide (r = q)) as [->|Hne]; [done|].
    rewrite within_eps_far in Hw; [done|]. by eapply (Hfar q r).
Qed.

Section Distance.
Local Open Scope R_scope.

Lemma Q2R_dist2 p q :
  Q2R (dist2 p q) =
    (Q2R (northing p) - Q2R (northing q)) * (Q2R (northing p) - Q2R (northing q)) +
    (Q2R (easting p) - Q2R (easting q)) * (Q2R (easting p) - Q2R (easting q)).
Proof. unfold dist2. by rewrite Q2R_plus, !Q2R_mult, !Q2R_minus. Qed.

Lemma Q2R_dist2_nonneg p q : 0 <= Q2R (dist2 p q).
Proof. rewrite Q2R_dist2. apply Rplus_le_le_0_compat; apply Rle_0_sqr. Qed.

(** The range query of the model is the one of the specification: the
    test on squared distances holds exactly when the Euclidean distance
    is at most [eps]. *)
Lemma within_eps_distance eps p q :
  within_eps eps p q = true <-> distance p q <= Q2R eps.
Proof.
  unfold within_eps, distance. rewrite andb_true_iff, !Qle_bool_iff.
  pose proof (Q2R_dist2_nonneg p q) as Hd. split.
  - intros [Heps Hle]. apply Qle_Rle in Heps, Hle.
    rewrite Q2R_mult in Hle. change (Q2R 0) with (Q2R (Qmake 0 1)) in Heps.
    rewrite Q2R_inject in Heps.
    rewrite <- (sqrt_square (Q2R eps)) by done. by apply sqrt_le_1_alt.
  - intros Hle. pose proof (sqrt_pos (Q2R (dist2 p q))) as Hs.
    pose proof (sqrt_sqrt _ Hd) as Hsq.
    split; apply Rle_Qle.
    + change (Q2R 0) with (Q2R (Qmake 0 1)). rewrite Q2R_inject. lra.
    + rewrite Q2R_mult. nra.
Qed.

(** Farther apart than [eps], in squared form. *)
Lemma far_apart_distance eps p q :
  (0 <= eps)%Q -> ((eps * eps < dist2 p q)%Q <-> Q2R eps < distance p q).
Proof.
  intros Heps. rewrite <- Qle_bool_iff in Heps.
  pose proof (within_eps_distance eps p q) as Hw. unfold within_eps in Hw.
  rewrite Heps in Hw. simpl in Hw. rewrite Qle_bool_iff in Hw. split.
  - intros Hlt. apply Rnot_le_lt. intros Hle. apply Hw in Hle.
    by apply Qlt_not_le in Hlt.
  - intros Hlt. apply Qnot_le_lt. intros Hle. apply Hw in Hle. lra.
Qed.
End Distance.

(** The bound on the steps of an expansion is never reached. *)
Lemma cluster_returns points eps minPts :
  cluster points eps minPts <> inl StepBoundReached.
Proof.
  unfold cluster.
  destruct (Qle_bool 0 eps) eqn:Heps; simpl; [|done].
  destruct (Z.ltb_spec minPts 1) as [|HminPts]; [done|].
  apply Qle_bool_iff in Heps.
  destruct (cluster_states_upto points eps minPts Heps) as ([states k] & Hrun & _).
  by rewrite Hrun.
Qed.

(** [fit_predict] on a frame with the two coordinate columns is the
    clusterer on the points of its rows, with [minPts = 5]. *)
Lemma fit_predict_cluster eps X ns es :
  df_getitem X "northing" = Ok ns ->
  df_getitem X "easting" = Ok es ->
  fit_predict eps X =
    Ok (cluster (zip_with (fun n e => {| northing := n; easting := e |}) ns es) eps 5).
Proof. intros Hn He. unfold fit_predict, points_of. by rewrite Hn, He. Qed.

(** *** The infected rows *)

(** The solution cell gives the rows new labels 0, 1, ... *)
Lemma infected_df_solution_reindexed gdf out :
  infected_df_solution gdf = Ok out ->
  df_index out = Z.of_nat <$> seq 0 (length (df_index out)).
Proof.
  unfold infected_df_solution. destruct (df_getitem gdf "infected"); [|done].
  simpl. intros [= <-]. simpl. by rewrite length_fmap, length_seq.
Qed.

(** C9, in the exercise cell.  On a frame whose second row is the
    infected one, the selected row keeps its label 1: the frame returned
    by [reset_index(drop=True)] is dropped, and the labels are not
    0, ..., m-1. *)
Theorem infected_df_exercise_keeps_labels :
  exists out,
    infected_df_exercise sample_gdf = Ok out /\
    df_index out = [1%Z] /\
    df_index out <> Z.of_nat <$> seq 0 (length (df_index out)).
Proof. eexists. split; [reflexivity|]. split; [reflexivity|]. vm_compute. discriminate. Qed.

(** *** Instances on the sample data *)

Lemma latlong2osgbgrid_dask_total_witness :
  exists out ns es,
    latlong2osgbgrid_dask origin_partition "lat" "long" true = Ok out /\
    latlong2osgbgrid (Array [49%R; 90%R]) (Array [(-2)%R; 0%R]) true = (Array ns, Array es) /\
    getitem out "northing" = Ok (FloatCol ns) /\
    getitem out "easting" = Ok (FloatCol es).
Proof.
  apply (latlong2osgbgrid_dask_total origin_partition "lat" "long" true
           [49%R; 90%R] [(-2)%R; 0%R]); reflexivity.
Defined.

Lemma map_partitions_partition_invariant_witness :
  exists outs,
    grid_pipeline (repartition [1] origin_partition) = Ok outs /\
    length outs = 2 /\
    compute_rows outs ≡ₚ compute_rows [origin_result].
Proof.
  apply (map_partitions_partition_invariant [1] origin_partition 2 origin_result).
  - repeat constructor.
  - reflexivity.
Defined.

Lemma latlong2osgbgrid_dask_frame_witness :
  (forall j k d, origin_partition !! j = Some (k, d) -> k <> "northing" -> k <> "easting" ->
     origin_result !! j = Some (k, d)) /\
  columns origin_result =
    columns origin_partition ++
    filter (fun k => k ∉ columns origin_partition) ["northing"; "easting"] /\
  ("northing" ∉ columns origin_partition -> "easting" ∉ columns origin_partition ->
     exists ns es,
       origin_result =
         origin_partition ++ [("northing", FloatCol ns); ("easting", FloatCol es)]) /\
  ("lat" <> "northing" -> "lat" <> "easting" ->
   "long" <> "northing" -> "long" <> "easting" ->
     latlong2osgbgrid_dask origin_result "lat" "long" true = Ok origin_result).
Proof.
  apply (latlong2osgbgrid_dask_frame origin_partition "lat" "long" true origin_result).
  reflexivity.
Defined.

(** Against C10 as stated.  The partition has a column [northing] before
    the call; after the call that column holds other values, and it
    stands where it stood, not on the right. *)
Lemma latlong2osgbgrid_dask_overwrites_northing :
  exists out,
    latlong2osgbgrid_dask stale_partition "lat" "long" true = Ok out /\
    getitem stale_partition "northing" = Ok (StrCol ["n/a"]) /\
    getitem out "northing" <> Ok (StrCol ["n/a"]) /\
    columns out = ["northing"; "lat"; "long"; "easting"] /\
    columns out <> columns stale_partition ++ ["northing"; "easting"].
Proof.
  eexists. split; [reflexivity|]. split; [reflexivity|]. split; [|split].
  - discriminate.
  - reflexivity.
  - discriminate.
Qed.

Lemma cluster_ids_dense_witness :
  exists ids k seeds,
    cluster scenario_points 5000 5 = inr ids /\
    length ids = length scenario_points /\
    (forall i id, ids !! i = Some id -> id = (-1)%Z \/ (0 <= id < Z.of_nat k)%Z) /\
    (forall i, ids !! i = Some (-1)%Z <->
       i < length scenario_points /\
       forall q, is_core (neighbors_of scenario_points 5000) (Z.to_nat 5) q = true ->
                 i ∉ neighbors_of scenario_points 5000 q) /\
    length seeds = k /\
    (forall c c' s s', seeds !! c = Some s -> seeds !! c' = Some s' -> c < c' -> s < s') /\
    (forall c s, seeds !! c = Some s ->
       is_core (neighbors_of scenario_points 5000) (Z.to_nat 5) s = true /\
       ids !! s = Some (Z.of_nat c) /\
       forall i, is_core (neighbors_of scenario_points 5000) (Z.to_nat 5) i = true ->
                 ids !! i = Some (Z.of_nat c) -> s <= i).
Proof.
  apply (cluster_ids_dense scenario_points 5000 5).
  - unfold Qle. simpl. lia.
  - lia.
Defined.

Lemma cluster_all_noise_witness :
  cluster far_points 9 2 = inr (replicate (length far_points) (-1)%Z).
Proof.
  apply (cluster_all_noise far_points 9 2).
  - unfold Qle. simpl. lia.
  - lia.
  - intros [|[|i]] [|[|j]] p q Hne; simpl; try done;
      intros [= <-] [= <-]; unfold Qlt; simpl; lia.
Defined.

(** The scenario of section 8: two clusters, two points labelled -1. *)
Example cluster_scenario :
  cluster scenario_points 5000 5 =
    inr [0; 0; 0; 0; 0; 0; 0; 0; -1; 1; 1; 1; 1; 1; 1; 1; 1; 1; 1; -1]%Z.
Proof. vm_compute. reflexivity. Qed.


(** ** Further properties of the grid conversion *)

Section TransformErrors.
Context {T : Type} `{NumOps T}.
Implicit Types (part out : Partition T) (c : Column T) (name : string).

Lemma getitem_missing part name :
  name ∉ columns part -> getitem part name = Raise (KeyError name).
Proof.
  unfold columns. induction part as [|[k c] part IH]; simpl; [done|].
  intros [Hne Hnotin]%not_elem_of_cons.
  rewrite decide_False by done. by apply IH.
Qed.

(** X2.  Without the latitude column the transform raises the [KeyError] of
    that column, whatever else the partition holds: the latitude is
    read first. *)
Theorem latlong2osgbgrid_dask_no_latitude part lat_col long_col deg :
  lat_col ∉ columns part ->
  latlong2osgbgrid_dask part lat_col long_col deg = Raise (KeyError lat_col).
Proof.
  intros Hmissing. unfold latlong2osgbgrid_dask.
  by rewrite (getitem_missing _ _ Hmissing).
Qed.

(** X3.  With a float latitude column and no longitude column it raises the
    [KeyError] of the longitude column. *)
Theorem latlong2osgbgrid_dask_no_longitude part lat_col long_col deg lats :
  getitem part lat_col = Ok (FloatCol lats) ->
  long_col ∉ columns part ->
  latlong2osgbgrid_dask part lat_col long_col deg = Raise (KeyError long_col).
Proof.
  intros Hlat Hmissing. unfold latlong2osgbgrid_dask.
  rewrite Hlat, (getitem_missing _ _ Hmissing). reflexivity.
Qed.

(** X4.  A partition with no rows is transformed into a partition with no
    rows: the two new columns are empty float columns. *)
Theorem latlong2osgbgrid_dask_no_rows part lat_col long_col deg :
  wf_partition 0 part ->
  getitem part lat_col = Ok (FloatCol []) ->
  getitem part long_col = Ok (FloatCol []) ->
  exists out,
    latlong2osgbgrid_dask part lat_col long_col deg = Ok out /\
    wf_partition 0 out /\
    getitem out "northing" = Ok (FloatCol []) /\
    getitem out "easting" = Ok (FloatCol []).
Proof.
  intros Hwf Hlat Hlong.
  destruct (latlong2osgbgrid_dask_values _ _ _ deg _ _ Hlat Hlong eq_refl)
    as (out & Hrun & Hn & He).
  exists out. split; [done|]. split; [|done].
  by eapply latlong2osgbgrid_dask_wf.
Qed.


(** *** The pipeline step *)


End TransformErrors.

(** *** The kernel and the central meridian *)

Section MeridianFacts.
Local Open Scope R_scope.

Lemma spec_project_meridian p lat :
  (spec_project p false lat (originLongitude p)).2 = falseEasting p.
Proof.
  unfold spec_project. cbn [snd].
  replace (originLongitude p - originLongitude p) with 0 by ring.
  unfold Rdiv. ring.
Qed.

(** X8.  On the central meridian, 2 degrees west, the easting is the false
    easting 400000 at every latitude. *)
Theorem latlong2osgbgrid_central_meridian (deg : bool) (lat long : R) :
  (if deg then long * PI / 180 else long) = -2 * PI / 180 ->
  (latlong2osgbgrid lat long deg).2 = 400000.
Proof.
  intros Hlong. rewrite latlong2osgbgrid_real.
  transitivity (spec_project OSGB36 false (if deg then lat * PI / 180 else lat)
                  (originLongitude OSGB36)).2.
  - cbn [OSGB36 originLongitude]. rewrite <- Hlong. by destruct deg.
  - apply spec_project_meridian.
Qed.

Lemma spec_project_mirror p lat d :
  (spec_project p false lat (originLongitude p + d)).1 =
    (spec_project p false lat (originLongitude p - d)).1 /\
  (spec_project p false lat (originLongitude p + d)).2 - falseEasting p =
    - ((spec_project p false lat (originLongitude p - d)).2 - falseEasting p).
Proof.
  unfold spec_project. cbn [fst snd].
  replace (originLongitude p + d - originLongitude p) with d by ring.
  replace (originLongitude p - d - originLongitude p) with (- d) by ring.
  split; unfold Rdiv; ring.
Qed.

(** X9.  Two points of the same latitude at the same angle [d] east and west
    of the central meridian have the same northing, and eastings that
    mirror each other around 400000; [d] is in the unit of the input. *)
Theorem latlong2osgbgrid_mirror (deg : bool) (lat d : R) :
  let meridian := if deg then -2 else -2 * PI / 180 in
  (latlong2osgbgrid lat (meridian + d) deg).1 =
    (latlong2osgbgrid lat (meridian - d) deg).1 /\
  (latlong2osgbgrid lat (meridian + d) deg).2 - 400000 =
    - ((latlong2osgbgrid lat (meridian - d) deg).2 - 400000).
Proof.
  intros meridian. rewrite !latlong2osgbgrid_real. destruct deg; unfold meridian.
  - rewrite !spec_project_degrees.
    replace ((-2 + d) * PI / 180) with (originLongitude OSGB36 + d * PI / 180)
      by (cbn [OSGB36 originLongitude]; unfold Rdiv; ring).
    replace ((-2 - d) * PI / 180) with (originLongitude OSGB36 - d * PI / 180)
      by (cbn [OSGB36 originLongitude]; unfold Rdiv; ring).
    apply (spec_project_mirror OSGB36).
  - apply (spec_project_mirror OSGB36).
Qed.
End MeridianFacts.


(** ** Further properties of the selection of the infected rows *)

Section MaskFacts.
Context {A B : Type}.
Implicit Types (mask : list bool).

Lemma mask_select_fmap (f : A -> B) mask (xs : list A) :
  mask_select mask (f <$> xs) = f <$> mask_select mask xs.
Proof.
  revert xs. induction mask as [|b mask IH]; intros [|x xs]; simpl; try done.
  destruct b; simpl; by rewrite IH.
Qed.

Lemma mask_select_zip mask (xs : list A) (ys : list B) :
  mask_select mask (zip xs ys) = zip (mask_select mask xs) (mask_select mask ys).
Proof.
  revert xs ys. induction mask as [|b mask IH]; intros [|x xs] [|y ys]; simpl; try done.
  - destruct b; [done|]. by rewrite zip_with_nil_r.
  - destruct b; simpl; by rewrite IH.
Qed.

Lemma mask_select_elem_of mask (xs : list A) x :
  x ∈ mask_select mask xs -> x ∈ xs.
Proof.
  revert xs. induction mask as [|b mask IH]; intros [|y xs]; simpl;
    try by intros ?%elem_of_nil.
  destruct b.
  - intros [->|Hin]%elem_of_cons; [left | right; by apply IH].
  - intros Hin. right. by apply IH.
Qed.

Lemma length_mask_select mask (xs : list A) (ys : list B) :
  length xs = length ys ->
  length (mask_select mask xs) = length (mask_select mask ys).
Proof.
  revert xs ys. induction mask as [|b mask IH]; intros [|x xs] [|y ys]; simpl; try done.
  intros [= Hlen]. destruct b; simpl; by rewrite (IH xs ys).
Qed.
End MaskFacts.

Lemma mask_select_nil_iff {A : Type} (mask : list bool) (xs : list A) :
  length xs = length mask ->
  mask_select mask xs = [] <-> mask = replicate (length mask) false.
Proof.
  revert xs. induction mask as [|b mask IH]; intros [|x xs]; simpl; try done.
  intros [= Hlen]. destruct b.
  - split; discriminate.
  - rewrite (IH xs Hlen). split; [by intros <- | by intros [= <-]].
Qed.

Lemma mask_select_seq_elem_of (mask : list bool) (s i : nat) :
  s + i ∈ mask_select mask (seq s (length mask)) <-> mask !! i = Some true.
Proof.
  revert s i. induction mask as [|b mask IH]; intros s i; simpl.
  - split; [by intros ?%elem_of_nil | done].
  - destruct i as [|i].
    + rewrite Nat.add_0_r. simpl. destruct b.
      * split; [done | intros _; left].
      * split; [|done]. intros Hin%mask_select_elem_of%elem_of_seq. lia.
    + simpl. replace (s + S i) with (S s + i) by lia. rewrite <- (IH (S s) i).
      destruct b; [|done]. rewrite elem_of_cons. split; [|by right].
      intros [?|?]; [lia | done].
Qed.

Lemma mask_select_seq_NoDup (mask : list bool) (s : nat) :
  NoDup (mask_select mask (seq s (length mask))).
Proof.
  revert s. induction mask as [|b mask IH]; intros s; simpl; [constructor|].
  destruct b; [|apply IH]. apply NoDup_cons. split; [|apply IH].
  intros Hin%mask_select_elem_of%elem_of_seq. lia.
Qed.

(** The kept positions come in increasing order. *)
Lemma mask_select_seq_sorted (mask : list bool) (s j j' i i' : nat) :
  j < j' ->
  mask_select mask (seq s (length mask)) !! j = Some i ->
  mask_select mask (seq s (length mask)) !! j' = Some i' ->
  i < i'.
Proof.
  revert s j j'. induction mask as [|b mask IH]; intros s j j' Hjj'; simpl; [done|].
  destruct b; [|by apply IH].
  destruct j' as [|j']; [lia|]. destruct j as [|j]; simpl.
  - intros [= <-] Hi'.
    assert (Hin : i' ∈ seq (S s) (length mask)).
    { apply (mask_select_elem_of mask), list_elem_of_lookup. by exists j'. }
    apply elem_of_seq in Hin. lia.
  - apply IH. lia.
Qed.

(** The kept positions are 0, 1, ... exactly when the mask is a run of
    [true] followed by a run of [false]. *)
Lemma mask_select_seq_prefix (mask : list bool) (s : nat) :
  mask_select mask (seq s (length mask)) =
    seq s (length (mask_select mask (seq s (length mask)))) <->
  exists m, m <= length mask /\
            mask = replicate m true ++ replicate (length mask - m) false.
Proof.
  revert s. induction mask as [|b mask IH]; intros s; simpl.
  - split; [|done]. intros _. by exists 0.
  - destruct b; simpl.
    + split.
      * intros [= Heq]. apply IH in Heq as (m & Hm & Hmask).
        exists (S m). split; [lia|]. simpl. by f_equal.
      * intros (m & Hm & Heq). destruct m as [|m]; [done|].
        simpl in Heq. injection Heq as Heq. f_equal. apply IH. by exists m; split; [lia|].
    + split.
      * intros Heq.
        destruct (mask_select mask (seq (S s) (length mask))) as [|h t] eqn:Hsel.
        -- apply mask_select_nil_iff in Hsel; [|by rewrite length_seq].
           exists 0. split; [lia|]. simpl. by f_equal.
        -- simpl in Heq. injection Heq as -> _.
           assert (Hin : s ∈ seq (S s) (length mask)).
           { apply (mask_select_elem_of mask). rewrite Hsel. left. }
           apply elem_of_seq in Hin. lia.
      * intros (m & Hm & Heq). destruct m as [|m]; [|done].
        simpl in Heq. injection Heq as Heq.
        apply (mask_select_nil_iff mask (seq (S s) (length mask))) in Heq;
          [|by rewrite length_seq].
        by rewrite Heq.
Qed.

Lemma df_getitem_in_fmap (g : list Q -> list Q) cols name :
  df_getitem_in ((fun kc => (kc.1, g kc.2)) <$> cols) name =
    match df_getitem_in cols name with
    | Ok c => Ok (g c)
    | Raise e => Raise e
    end.
Proof.
  induction cols as [|[k c] cols IH]; simpl; [done|].
  by destruct (decide (k = name)).
Qed.

Lemma df_getitem_in_missing cols name :
  name ∉ cols.*1 -> df_getitem_in cols name = Raise (KeyError name).
Proof.
  induction cols as [|[k c] cols IH]; simpl; [done|].
  intros [Hne Hnotin]%not_elem_of_cons.
  rewrite decide_False by done. by apply IH.
Qed.

Lemma df_getitem_in_length n cols name c :
  Forall (fun kc => length kc.2 = n) cols ->
  df_getitem_in cols name = Ok c -> length c = n.
Proof.
  intros Hwf. induction Hwf as [|[k d] cols Hd _ IH]; simpl; [done|].
  destruct (decide (k = name)); [|done]. by intros [= <-].
Qed.

Lemma zip_seq_elem_of {A : Type} (xs : list A) (i : nat) (x : A) :
  (i, x) ∈ zip (seq 0 (length xs)) xs -> xs !! i = Some x.
Proof.
  intros (j & Hj)%list_elem_of_lookup.
  apply lookup_zip_with_Some in Hj as (i' & x' & [= <- <-] & Hi & Hx).
  apply lookup_seq in Hi as [-> _]. done.
Qed.

(** X10.  Without the column [infected] both cells raise its [KeyError]. *)
Theorem infected_df_no_flag gdf :
  "infected" ∉ (df_columns gdf).*1 ->
  infected_df_exercise gdf = Raise (KeyError "infected") /\
  infected_df_solution gdf = Raise (KeyError "infected").
Proof.
  intros Hmissing. unfold infected_df_exercise, infected_df_solution, df_getitem.
  by rewrite (df_getitem_in_missing _ _ Hmissing).
Qed.

(** X11.  The solution cell on a frame read by [read_csv] that has no column
    named [index].  It keeps exactly the rows whose flag is 1, each
    once and in the order of the frame: the column [index] lists their
    positions in the frame, in increasing order, the new labels are
    0, 1, ..., and row [j] of the result holds, in every column of the
    frame, the value of the row that [index] names. *)
Theorem infected_df_solution_rows gdf n infected out :
  wf_frame n gdf ->
  df_index gdf = default_index n ->
  "index" ∉ (df_columns gdf).*1 ->
  df_getitem gdf "infected" = Ok infected ->
  infected_df_solution gdf = Ok out ->
  exists positions : list nat,
    NoDup positions /\
    (forall j j' i i', j < j' -> positions !! j = Some i -> positions !! j' = Some i' ->
                       i < i') /\
    (forall i, i ∈ positions <->
               exists v, infected !! i = Some v /\ Qeq_bool v 1 = true) /\
    df_index out = default_index (length positions) /\
    df_getitem out "index" = Ok ((fun i => inject_Z (Z.of_nat i)) <$> positions) /\
    (forall j i name c,
       positions !! j = Some i -> name <> "index" ->
       df_getitem gdf name = Ok c ->
       exists c', df_getitem out name = Ok c' /\ c' !! j = c !! i).
Proof.
  intros [Hilen Hcols] Hindex _ Hflag Hout.
  unfold infected_df_solution in Hout. rewrite Hflag in Hout. simpl in Hout.
  injection Hout as <-.
  set (mask := eq_scalar infected 1).
  assert (Hinf : length infected = n) by (by eapply df_getitem_in_length).
  assert (Hmask : length mask = n) by (unfold mask, eq_scalar; by rewrite length_fmap).
  exists (mask_select mask (seq 0 n)). split; [|split; [|split; [|split; [|split]]]].
  - rewrite <- Hmask. apply mask_select_seq_NoDup.
  - intros j j' i i'. rewrite <- Hmask. apply mask_select_seq_sorted.
  - intros i. rewrite <- Hmask.
    rewrite (mask_select_seq_elem_of mask 0 i).
    unfold mask, eq_scalar. rewrite list_lookup_fmap.
    destruct (infected !! i) as [v|]; simpl.
    + split; [intros [= Hv]; eauto | by intros (v' & [= <-] & ->)].
    + split; [done | by intros (? & ? & _)].
  - simpl. rewrite Hindex. unfold default_index.
    by rewrite mask_select_fmap, !length_fmap.
  - unfold df_getitem. simpl. rewrite Hindex. unfold default_index.
    rewrite mask_select_fmap. by rewrite <- !list_fmap_compose.
  - intros j i name c Hj Hname Hc. unfold df_getitem in *. simpl.
    rewrite decide_False by done.
    rewrite (df_getitem_in_fmap (mask_select mask)), Hc.
    eexists. split; [done|].
    assert (Hclen : length c = n) by (by eapply df_getitem_in_length).
    destruct (mask_select mask c !! j) as [x|] eqn:Hx.
    + symmetry. apply zip_seq_elem_of. rewrite Hclen.
      apply (mask_select_elem_of mask). rewrite mask_select_zip.
      apply list_elem_of_lookup. exists j. apply lookup_zip_with_Some. eauto.
    + apply lookup_ge_None in Hx. apply lookup_lt_Some in Hj.
      rewrite (length_mask_select mask (seq 0 n) c) in Hj; [lia|].
      by rewrite length_seq.
Qed.

(** X12.  The exercise cell on a frame read by [read_csv]: the selected rows
    keep the labels they had, so the labels of [infected_df] are
    0, 1, ... exactly when the infected rows are the first rows of the
    frame. *)
Theorem infected_df_exercise_index gdf n infected out :
  wf_frame n gdf ->
  df_index gdf = default_index n ->
  df_getitem gdf "infected" = Ok infected ->
  infected_df_exercise gdf = Ok out ->
  df_index out = default_index (length (df_index out)) <->
  exists m, m <= n /\
            eq_scalar infected 1 = replicate m true ++ replicate (n - m) false.
Proof.
  intros [Hilen Hcols] Hindex Hflag Hout.
  unfold infected_df_exercise in Hout. rewrite Hflag in Hout. simpl in Hout.
  injection Hout as <-. simpl.
  set (mask := eq_scalar infected 1).
  assert (Hinf : length infected = n) by (by eapply df_getitem_in_length).
  assert (Hmask : length mask = n) by (unfold mask, eq_scalar; by rewrite length_fmap).
  rewrite Hindex. unfold default_index. rewrite mask_select_fmap, length_fmap.
  rewrite <- Hmask, <- (mask_select_seq_prefix mask 0). split.
  - apply (inj (fmap Z.of_nat)).
  - by intros <-.
Qed.

(** *** The number of distinct cluster ids *)

(** X13.  [nunique] counts the noise label as a value: on labels that are -1
    or one of the ids [0, ..., k-1], all of which occur, it gives [k + 1]
    when some point is noise and [k] when none is. *)
Theorem nunique_counts_noise (labels : list Z) (k : nat) :
  (forall id, id ∈ labels -> id = (-1)%Z \/ (0 <= id < Z.of_nat k)%Z) ->
  (forall c, c < k -> Z.of_nat c ∈ labels) ->
  nunique labels = k + (if decide ((-1)%Z ∈ labels) then 1 else 0).
Proof.
  intros Hrange Hdense. unfold nunique.
  set (noise := if decide ((-1)%Z ∈ labels) then [(-1)%Z] else []).
  assert (Hperm : remove_dups labels ≡ₚ noise ++ (Z.of_nat <$> seq 0 k)).
  { apply NoDup_Permutation.
    - apply NoDup_remove_dups.
    - apply NoDup_app. split; [|split].
      + unfold noise. destruct (decide _); [apply NoDup_singleton | constructor].
      + intros id Hid (c & -> & _)%list_elem_of_fmap. unfold noise in Hid.
        destruct (decide _); [|by apply elem_of_nil in Hid].
        apply list_elem_of_singleton in Hid. lia.
      + apply NoDup_fmap; [apply _ | apply NoDup_seq].
    - intros id. rewrite elem_of_remove_dups, elem_of_app, list_elem_of_fmap. split.
      + intros Hid. destruct (Hrange id Hid) as [->|Hc].
        * left. unfold noise. rewrite decide_True by done. left.
        * right. exists (Z.to_nat id). split; [lia|]. apply elem_of_seq. lia.
      + intros [Hid|(c & -> & Hc%elem_of_seq)].
        * unfold noise in Hid. destruct (decide _) as [Hin|]; [|by apply elem_of_nil in Hid].
          by apply list_elem_of_singleton in Hid as ->.
        * apply Hdense. lia. }
  rewrite Hperm, length_app, length_fmap, length_seq.
  unfold noise. destruct (decide _); simpl; lia.
Qed.


(** ** The address of the scheduler *)

Section SplitFacts.
Context {C : Type}.
Variable isspace : C -> bool.
Implicit Types (word text output : list C).

Lemma split_from_cons word text w rest :
  split_from isspace word text = w :: rest ->
  exists pre run post,
    text = pre ++ run ++ post /\
    w = reverse word ++ run /\
    Forall (fun c => isspace c = false) run /\
    (post = [] \/ exists c post', post = c :: post' /\ isspace c = true) /\
    (word = [] -> Forall (fun c => isspace c = true) pre /\ run <> []) /\
    (word <> [] -> pre = []).
Proof.
  revert word. induction text as [|c text IH]; intros word; simpl.
  - destruct word as [|d word]; [done|]. intros [= <- <-].
    exists [], [], [].
    split_and!; [done | by rewrite app_nil_r | constructor | by left | done | done].
  - destruct (isspace c) eqn:Hc.
    + destruct word as [|d word].
      * intros (pre & run & post & -> & -> & Hrun & Hpost & Hnil & _)%IH.
        destruct (Hnil eq_refl) as [Hpre Hne].
        exists (c :: pre), run, post.
        split_and!; [done | done | done | done | | done].
        intros _. split; [by constructor | done].
      * intros [= <- <-]. exists [], [], (c :: text).
        split_and!; [done | by rewrite app_nil_r | constructor | right; eauto | done | done].
    + intros (pre & run & post & -> & -> & Hrun & Hpost & _ & Hcons)%IH.
      rewrite (Hcons ltac:(done)). exists [], (c :: run), post.
      rewrite reverse_cons, <- app_assoc.
      split_and!; [done | done | by constructor | done | | done].
      intros _. split; [constructor | done].
Qed.

Lemma split_from_nil word text :
  split_from isspace word text = [] <->
  word = [] /\ Forall (fun c => isspace c = true) text.
Proof.
  revert word. induction text as [|c text IH]; intros word; simpl.
  - destruct word; split; try done. by intros [? _].
  - destruct (isspace c) eqn:Hc.
    + destruct word as [|d word].
      * rewrite IH. split; intros [? Hall]; split; auto.
        by apply Forall_cons_1 in Hall as [_ ?].
      * split; [done | by intros [? _]].
    + rewrite IH. split; [by intros [? _]|].
      intros [_ [Hc' _]%Forall_cons_1]. congruence.
Qed.

(** X14.  [IPADDR] is the first word of the output: it is not empty, it has no
    whitespace, only whitespace comes before it, and the output ends
    after it or goes on with a whitespace character. *)
Theorem IPADDR_first_word output word :
  IPADDR isspace output = Some word ->
  word <> [] /\
  Forall (fun c => isspace c = false) word /\
  exists pre post,
    output = pre ++ word ++ post /\
    Forall (fun c => isspace c = true) pre /\
    (post = [] \/ exists c post', post = c :: post' /\ isspace c = true).
Proof.
  unfold IPADDR, split.
  destruct (split_from isspace [] output) as [|w rest] eqn:Hsplit; [done|].
  intros [= <-].
  apply split_from_cons in Hsplit
    as (pre & run & post & -> & -> & Hrun & Hpost & Hnil & _).
  destruct (Hnil eq_refl) as [Hpre Hne]. simpl.
  split; [done|]. split; [done|]. by exists pre, post.
Qed.

(** X15.  The index [0] raises [IndexError] exactly when the output has
    nothing but whitespace, the empty output included. *)
Theorem IPADDR_IndexError output :
  IPADDR isspace output = None <-> Forall (fun c => isspace c = true) output.
Proof.
  unfold IPADDR, split.
  destruct (split_from isspace [] output) as [|w rest] eqn:Hsplit.
  - apply split_from_nil in Hsplit as [_ Hall]. by split.
  - split; [done|]. intros Hall.
    assert (Hnil : split_from isspace [] output = []) by (by apply split_from_nil).
    congruence.
Qed.
End SplitFacts.


(** *** Splitting into words *)

Section SplitWords.
Context {C : Type}.
Variable isspace : C -> bool.
Implicit Types (word text w : list C).

Lemma split_from_app word w text :
  Forall (fun c => isspace c = false) w ->
  split_from isspace word (w ++ text) = split_from isspace (reverse w ++ word) text.
Proof.
  intros Hw. revert word. induction Hw as [|c w Hc _ IH]; intros word; simpl; [done|].
  rewrite Hc, IH, reverse_cons, <- app_assoc. done.
Qed.

(** X16.  [split] reads a text word by word: whitespace at the front is
    skipped, a word that ends the text is the only word, and a word
    followed by a whitespace character is the first word, before the
    words of the rest of the text. *)
Theorem split_word w :
  w <> [] ->
  Forall (fun c => isspace c = false) w ->
  split isspace w = [w] /\
  forall sp text,
    isspace sp = true ->
    split isspace (sp :: text) = split isspace text /\
    split isspace (w ++ sp :: text) = w :: split isspace text.
Proof.
  intros Hne Hw. unfold split.
  assert (Hrev : reverse w <> []).
  { intros Hnil. apply Hne. by rewrite <- (reverse_involutive w), Hnil. }
  split.
  - rewrite <- (app_nil_r w) at 1. rewrite split_from_app, app_nil_r by done. simpl.
    destruct (reverse w) as [|d r] eqn:Hr; [done|].
    by rewrite <- Hr, reverse_involutive.
  - intros sp text Hsp. split; [simpl; by rewrite Hsp|].
    rewrite split_from_app, app_nil_r by done. simpl. rewrite Hsp.
    destruct (reverse w) as [|d r] eqn:Hr; [done|].
    by rewrite <- Hr, reverse_involutive.
Qed.
End SplitWords.

(** *** The points that are clustered *)

Lemma mask_select_zip_with {A B D : Type} (f : A -> B -> D) mask (xs : list A) (ys : list B) :
  mask_select mask (zip_with f xs ys) =
    zip_with f (mask_select mask xs) (mask_select mask ys).
Proof.
  revert xs ys. induction mask as [|b mask IH]; intros [|x xs] [|y ys]; simpl; try done.
  - destruct b; [done|]. by rewrite zip_with_nil_r.
  - destruct b; simpl; by rewrite IH.
Qed.

(** X17.  The two cells hand the same points to [fit_predict]: the pairs
    (northing, easting) of the rows whose flag is 1, in the order of
    the frame.  The labels that the exercise cell leaves in place and
    the column [index] of the solution cell do not reach the
    clusterer. *)
Theorem infected_df_points gdf infected ns es :
  df_getitem gdf "infected" = Ok infected ->
  df_getitem gdf "northing" = Ok ns ->
  df_getitem gdf "easting" = Ok es ->
  exists out out',
    infected_df_exercise gdf = Ok out /\
    infected_df_solution gdf = Ok out' /\
    points_of out =
      Ok (mask_select (eq_scalar infected 1)
            (zip_with (fun n e => {| northing := n; easting := e |}) ns es)) /\
    points_of out' = points_of out.
Proof.
  intros Hflag Hn He. unfold infected_df_exercise, infected_df_solution.
  rewrite Hflag. simpl. do 2 eexists. split; [done|]. split; [done|].
  unfold points_of, df_getitem in *. simpl.
  rewrite !(df_getitem_in_fmap (mask_select (eq_scalar infected 1))), Hn, He. simpl.
  by rewrite mask_select_zip_with.
Qed.

(** *** More instances on the sample data *)

Lemma latlong2osgbgrid_dask_no_latitude_witness :
  latlong2osgbgrid_dask no_lat_partition "lat" "long" true = Raise (KeyError "lat").
Proof.
  apply (latlong2osgbgrid_dask_no_latitude no_lat_partition "lat" "long" true).
  unfold columns. simpl. intros Hin.
  repeat (apply elem_of_cons in Hin as [Hin|Hin]; [discriminate|]).
  by apply elem_of_nil in Hin.
Defined.

Lemma latlong2osgbgrid_dask_no_longitude_witness :
  latlong2osgbgrid_dask no_long_partition "lat" "long" true = Raise (KeyError "long").
Proof.
  apply (latlong2osgbgrid_dask_no_longitude no_long_partition "lat" "long" true [54.5%R]).
  - reflexivity.
  - unfold columns. simpl. intros Hin.
    repeat (apply elem_of_cons in Hin as [Hin|Hin]; [discriminate|]).
    by apply elem_of_nil in Hin.
Defined.

Lemma latlong2osgbgrid_dask_no_rows_witness :
  exists out,
    latlong2osgbgrid_dask empty_partition "lat" "long" true = Ok out /\
    wf_partition 0 out /\
    getitem out "northing" = Ok (FloatCol []) /\
    getitem out "easting" = Ok (FloatCol []).
Proof.
  apply (latlong2osgbgrid_dask_no_rows empty_partition "lat" "long" true).
  - repeat constructor.
  - reflexivity.
  - reflexivity.
Defined.



Lemma latlong2osgbgrid_central_meridian_witness :
  (latlong2osgbgrid 54%R (-2)%R true).2 = 400000%R.
Proof.
  apply (latlong2osgbgrid_central_meridian true 54%R (-2)%R). reflexivity.
Defined.

Lemma infected_df_no_flag_witness :
  infected_df_exercise no_flag_gdf = Raise (KeyError "infected") /\
  infected_df_solution no_flag_gdf = Raise (KeyError "infected").
Proof.
  apply (infected_df_no_flag no_flag_gdf).
  simpl. intros Hin.
  repeat (apply elem_of_cons in Hin as [Hin|Hin]; [discriminate|]).
  by apply elem_of_nil in Hin.
Defined.

Lemma infected_df_solution_rows_witness :
  exists positions : list nat,
    NoDup positions /\
    (forall j j' i i', j < j' -> positions !! j = Some i -> positions !! j' = Some i' ->
                       i < i') /\
    (forall i, i ∈ positions <->
               exists v, [0; 1; 0; 1]%Q !! i = Some v /\ Qeq_bool v 1 = true) /\
    df_index four_rows_infected = default_index (length positions) /\
    df_getitem four_rows_infected "index" =
      Ok ((fun i => inject_Z (Z.of_nat i)) <$> positions) /\
    (forall j i name c,
       positions !! j = Some i -> name <> "index" ->
       df_getitem four_rows_gdf name = Ok c ->
       exists c', df_getitem four_rows_infected name = Ok c' /\ c' !! j = c !! i).
Proof.
  apply (infected_df_solution_rows four_rows_gdf 4 [0; 1; 0; 1]%Q four_rows_infected).
  - split; [reflexivity | repeat constructor].
  - reflexivity.
  - simpl. intros Hin.
    repeat (apply elem_of_cons in Hin as [Hin|Hin]; [discriminate|]).
    by apply elem_of_nil in Hin.
  - reflexivity.
  - reflexivity.
Defined.

Lemma infected_df_exercise_index_witness :
  df_index four_rows_selected = default_index (length (df_index four_rows_selected)) <->
  exists m, m <= 4 /\
            eq_scalar [0; 1; 0; 1]%Q 1 = replicate m true ++ replicate (4 - m) false.
Proof.
  apply (infected_df_exercise_index four_rows_gdf 4 [0; 1; 0; 1]%Q four_rows_selected).
  - split; [reflexivity | repeat constructor].
  - reflexivity.
  - reflexivity.
  - reflexivity.
Defined.

Lemma infected_df_points_witness :
  exists out out',
    infected_df_exercise four_rows_gdf = Ok out /\
    infected_df_solution four_rows_gdf = Ok out' /\
    points_of out =
      Ok (mask_select (eq_scalar [0; 1; 0; 1]%Q 1)
            (zip_with (fun n e => {| northing := n; easting := e |})
               [178547.296875; 595509.25; 358293.6875; 185086.609375]%Q
               [368012.125; 426545.59375; 435639.875; 547718]%Q)) /\
    points_of out' = points_of out.
Proof.
  apply (infected_df_points four_rows_gdf); reflexivity.
Defined.

Lemma nunique_counts_noise_witness :
  nunique [-1; 0; 0; 1; 0]%Z =
    2 + (if decide ((-1)%Z ∈ [-1; 0; 0; 1; 0]%Z) then 1 else 0).
Proof.
  apply (nunique_counts_noise [-1; 0; 0; 1; 0]%Z 2).
  - intros id Hid.
    repeat (apply elem_of_cons in Hid as [->|Hid]; [lia|]).
    by apply elem_of_nil in Hid.
  - intros [|[|c]] Hc; [| |lia].
    + right. left.
    + do 3 right. left.
Defined.

Lemma IPADDR_first_word_witness :
  String.list_ascii_of_string "172.18.0.4" <> [] /\
  Forall (fun c => ascii_isspace c = false) (String.list_ascii_of_string "172.18.0.4") /\
  exists pre post,
    hostname_output = pre ++ String.list_ascii_of_string "172.18.0.4" ++ post /\
    Forall (fun c => ascii_isspace c = true) pre /\
    (post = [] \/ exists c post', post = c :: post' /\ ascii_isspace c = true).
Proof.
  apply (IPADDR_first_word ascii_isspace hostname_output). reflexivity.
Defined.

Lemma split_word_witness :
  split ascii_isspace (String.list_ascii_of_string "hostname") =
    [String.list_ascii_of_string "hostname"] /\
  forall sp text,
    ascii_isspace sp = true ->
    split ascii_isspace (sp :: text) = split ascii_isspace text /\
    split ascii_isspace (String.list_ascii_of_string "hostname" ++ sp :: text) =
      String.list_ascii_of_string "hostname" :: split ascii_isspace text.
Proof.
  apply (split_word ascii_isspace (String.list_ascii_of_string "hostname")).
  - discriminate.
  - repeat constructor.
Defined.

(** ** The grid conversion on partitions with row labels *)

Section IndexedFacts.
Context {T : Type} `{NumOps T}.
Implicit Types (frame : Indexed.Frame T) (part : Partition T) (values : list T).

Lemma at_label_of_nat values (i : nat) :
  Indexed.at_label values (Z.of_nat i) = values !! i.
Proof.
  unfold Indexed.at_label. destruct (Z.ltb_spec (Z.of_nat i) 0); [lia|].
  by rewrite Nat2Z.id.
Qed.

Lemma align_default values :
  Indexed.align (default_index (length values)) values = Some <$> values.
Proof.
  unfold Indexed.align, default_index. rewrite <- list_fmap_compose.
  apply list_eq. intros i. rewrite !list_lookup_fmap.
  destruct (decide (i < length values)) as [Hi|Hi].
  - rewrite lookup_seq_lt by done. simpl. rewrite at_label_of_nat.
    by destruct (lookup_lt_is_Some_2 values i Hi) as [x ->].
  - rewrite lookup_seq_ge by lia. by rewrite lookup_ge_None_2 by lia.
Qed.

Lemma nullable_data_setitem part name (c : Column T) :
  Indexed.nullable_data (setitem part name c) =
    setitem (Indexed.nullable_data part) name (Indexed.nullable c).
Proof.
  unfold Indexed.nullable_data. induction part as [|[k d] part IH]; simpl; [done|].
  destruct (decide (k = name)); simpl; [done|]. f_equal. exact IH.
Qed.

Lemma getitem_nullable_data part name :
  getitem (Indexed.nullable_data part) name =
    match getitem part name with
    | Ok c => Ok (Indexed.nullable c)
    | Raise e => Raise e
    end.
Proof.
  unfold Indexed.nullable_data. induction part as [|[k d] part IH]; simpl; [done|].
  by destruct (decide (k = name)).
Qed.


Lemma Indexed_latlong2osgbgrid_dask_ok frame lat_col long_col deg lats longs :
  getitem (Indexed.data frame) lat_col = Ok (FloatCol lats) ->
  getitem (Indexed.data frame) long_col = Ok (FloatCol longs) ->
  exists ns es,
    latlong2osgbgrid (Array lats) (Array longs) deg = (Array ns, Array es) /\
    Indexed.latlong2osgbgrid_dask frame lat_col long_col deg =
      Ok {| Indexed.index := Indexed.index frame;
            Indexed.data :=
              setitem (setitem (Indexed.nullable_data (Indexed.data frame)) "northing"
                         (FloatCol (Indexed.align (Indexed.index frame) ns)))
                "easting" (FloatCol (Indexed.align (Indexed.index frame) es)) |}.
Proof.
  intros Hlat Hlong.
  destruct (latlong2osgbgrid_is_array lats (Array longs) deg) as (ns & es & Heq).
  exists ns, es. split; [done|].
  unfold Indexed.latlong2osgbgrid_dask. rewrite Hlat, Hlong.
  cbn [mbind result_bind asarray]. rewrite Heq. reflexivity.
Qed.

Lemma Indexed_latlong2osgbgrid_dask_inv frame lat_col long_col deg out :
  Indexed.latlong2osgbgrid_dask frame lat_col long_col deg = Ok out ->
  exists lats longs,
    getitem (Indexed.data frame) lat_col = Ok (FloatCol lats) /\
    getitem (Indexed.data frame) long_col = Ok (FloatCol longs).
Proof.
  unfold Indexed.latlong2osgbgrid_dask.
  destruct (getitem (Indexed.data frame) lat_col) as [[lats|?]|?];
    cbn [mbind result_bind asarray]; [|done..].
  destruct (getitem (Indexed.data frame) long_col) as [[longs|?]|?];
    cbn [mbind result_bind asarray]; [|done..].
  eauto.
Qed.

(** On a partition with the default index the assignment stores the
    series position by position: the transform is the one on the columns
    alone, and no entry is null. *)
Lemma Indexed_latlong2osgbgrid_dask_default part lat_col long_col deg n :
  wf_partition n part ->
  Indexed.latlong2osgbgrid_dask
      {| Indexed.index := default_index n; Indexed.data := part |} lat_col long_col deg =
    out ← latlong2osgbgrid_dask part lat_col long_col deg;
    mret {| Indexed.index := default_index n; Indexed.data := Indexed.nullable_data out |}.
Proof.
  intros Hwf.
  destruct (latlong2osgbgrid_dask part lat_col long_col deg) as [out|e] eqn:Hout.
  - destruct (latlong2osgbgrid_dask_closed_form _ _ _ _ _ _ Hwf Hout)
      as (lats & longs & Hlat & Hlong & Hnlat & Hnlong & ->).
    destruct (Indexed_latlong2osgbgrid_dask_ok
                {| Indexed.index := default_index n; Indexed.data := part |}
                lat_col long_col deg lats longs Hlat Hlong) as (ns & es & Heq & ->).
    rewrite latlong2osgbgrid_arrays in Heq by congruence.
    apply kernel_result_inj in Heq as [<- <-].
    cbn [mbind result_bind mret result_ret Indexed.index Indexed.data]. do 2 f_equal.
    rewrite !nullable_data_setitem. cbn [Indexed.nullable].
    assert (Hlen : forall f : T -> T -> T, n = length (zip_with f lats longs)).
    { intros f. rewrite length_zip_with. lia. }
    rewrite (Hlen (fun la lo => (latlong2osgbgrid la lo deg).1)) at 1.
    rewrite (Hlen (fun la lo => (latlong2osgbgrid la lo deg).2)) at 1.
    by rewrite !align_default.
  - cbn [mbind result_bind]. unfold Indexed.latlong2osgbgrid_dask, latlong2osgbgrid_dask in *.
    cbn [Indexed.data].
    destruct (getitem part lat_col) as [[lats|?]|?]; cbn [mbind result_bind asarray] in *;
      [|by injection Hout as ->..].
    destruct (getitem part long_col) as [[longs|?]|?]; cbn [mbind result_bind asarray] in *;
      [|by injection Hout as ->..].
    destruct (latlong2osgbgrid_is_array lats (Array longs) deg) as (ns & es & Heq).
    rewrite Heq in Hout. discriminate Hout.
Qed.
End IndexedFacts.

Section IndexedTransform.
Context {T : Type} `{NumOps T}.
Implicit Types (frame : Indexed.Frame T) (part : Partition T).

(** The transform on a partition with any labels: the labels stay, and
    the two new columns are the series of the kernel values aligned on
    them. *)
Lemma Indexed_latlong2osgbgrid_dask_aligned frame lat_col long_col deg n out :
  wf_partition n (Indexed.data frame) ->
  Indexed.latlong2osgbgrid_dask frame lat_col long_col deg = Ok out ->
  exists lats longs,
    getitem (Indexed.data frame) lat_col = Ok (FloatCol lats) /\
    getitem (Indexed.data frame) long_col = Ok (FloatCol longs) /\
    Indexed.index out = Indexed.index frame /\
    getitem (Indexed.data out) "northing" =
      Ok (FloatCol (Indexed.align (Indexed.index frame)
            (zip_with (fun la lo : T => (latlong2osgbgrid la lo deg).1) lats longs))) /\
    getitem (Indexed.data out) "easting" =
      Ok (FloatCol (Indexed.align (Indexed.index frame)
            (zip_with (fun la lo : T => (latlong2osgbgrid la lo deg).2) lats longs))).
Proof.
  intros Hwf Hout.
  destruct (Indexed_latlong2osgbgrid_dask_inv _ _ _ _ _ Hout) as (lats & longs & Hlat & Hlong).
  destruct (Indexed_latlong2osgbgrid_dask_ok _ _ _ deg _ _ Hlat Hlong)
    as (ns & es & Heq & Hrun).
  rewrite Hrun in Hout. injection Hout as <-.
  pose proof (wf_getitem _ _ _ _ Hwf Hlat) as Hnlat.
  pose proof (wf_getitem _ _ _ _ Hwf Hlong) as Hnlong.
  simpl in Hnlat, Hnlong.
  rewrite latlong2osgbgrid_arrays in Heq by congruence.
  apply kernel_result_inj in Heq as [<- <-].
  exists lats, longs. cbn [Indexed.index Indexed.data].
  split; [done|]. split; [done|]. split; [done|]. split.
  - rewrite getitem_setitem_ne by done. apply getitem_setitem_eq.
  - apply getitem_setitem_eq.
Qed.

End IndexedTransform.

Section IndexedReal.
Local Open Scope R_scope.

(** C5, as amended.  The transform takes the partition, the names of the
    two coordinate columns and the degrees flag, and nothing else; the
    ellipsoid and the origin are the OSGB36 constants written in its body.
    On every partition with the default index and float coordinate
    columns it returns the projection at the OSGB36 parameters, row by
    row. *)
Theorem latlong2osgbgrid_dask_default_index_is_OSGB36 (frame : Indexed.Frame R)
    lat_col long_col deg n lats longs :
  wf_partition n (Indexed.data frame) ->
  Indexed.index frame = default_index n ->
  getitem (Indexed.data frame) lat_col = Ok (FloatCol lats) ->
  getitem (Indexed.data frame) long_col = Ok (FloatCol longs) ->
  exists out,
    Indexed.latlong2osgbgrid_dask frame lat_col long_col deg = Ok out /\
    Indexed.index out = default_index n /\
    getitem (Indexed.data out) "northing" =
      Ok (FloatCol (Some <$> zip_with (fun la lo => (spec_project OSGB36 deg la lo).1)
                               lats longs)) /\
    getitem (Indexed.data out) "easting" =
      Ok (FloatCol (Some <$> zip_with (fun la lo => (spec_project OSGB36 deg la lo).2)
                               lats longs)).
Proof.
  destruct frame as [labels part]. cbn [Indexed.index Indexed.data].
  intros Hwf -> Hlat Hlong.
  pose proof (wf_getitem _ _ _ _ Hwf Hlat) as Hnlat.
  pose proof (wf_getitem _ _ _ _ Hwf Hlong) as Hnlong.
  simpl in Hnlat, Hnlong.
  destruct (latlong2osgbgrid_dask_values part lat_col long_col deg lats longs Hlat Hlong)
    as (out0 & Hrun & Hn & He); [congruence|].
  rewrite (Indexed_latlong2osgbgrid_dask_default _ _ _ _ _ Hwf), Hrun.
  cbn [mbind result_bind mret result_ret]. eexists. split; [done|].
  cbn [Indexed.index Indexed.data]. split; [done|].
  rewrite !getitem_nullable_data, Hn, He. cbn [Indexed.nullable].
  split; do 3 f_equal; apply zip_with_ext; try done;
    intros la lo; by rewrite latlong2osgbgrid_real.
Qed.



End IndexedReal.


Lemma latlong2osgbgrid_dask_default_index_is_OSGB36_witness :
  exists out,
    Indexed.latlong2osgbgrid_dask origin_frame "lat" "long" true = Ok out /\
    Indexed.index out = default_index 2 /\
    getitem (Indexed.data out) "northing" =
      Ok (FloatCol (Some <$> zip_with (fun la lo => (spec_project OSGB36 true la lo).1)
                               [49%R; 90%R] [(-2)%R; 0%R])) /\
    getitem (Indexed.data out) "easting" =
      Ok (FloatCol (Some <$> zip_with (fun la lo => (spec_project OSGB36 true la lo).2)
                               [49%R; 90%R] [(-2)%R; 0%R])).
Proof.
  apply (latlong2osgbgrid_dask_default_index_is_OSGB36 origin_frame "lat" "long" true 2
           [49%R; 90%R] [(-2)%R; 0%R]).
  - repeat constructor.
  - reflexivity.
  - reflexivity.
  - reflexivity.
Defined.
